(** * Gerchberg-Saxton phaseless retrieval: a shallow embedding

    The notebook [Gerchberg-Saxton.ipynb] defines [randunif], [random_frame]
    and [gs_phaseless] and a main routine that evaluates the estimate against
    the ground truth.  Array entries are modelled as exact real numbers
    (rounding inside the arrays is not modelled), complex entries as pairs of
    reals, 1-D arrays as lists and 2-D arrays as a shape together with the
    list of rows.  The one scalar computation that decides a shape, the frame
    dimension [int(input_dimension * redundancy)], is modelled on Python's
    own numbers: unbounded integers and binary64 floats with their rounding,
    infinities and NaN.  Operations that can raise (shape checks of [@] and of
    broadcasting, negative dimensions, [int] of an infinite or NaN float)
    return a [result]. *)

From Stdlib Require Import Reals Lra Lia List ZArith QArith Qround Bool Arith SpecFloat.
Import ListNotations.

Local Open Scope R_scope.

(** ** Exceptions *)

Inductive exn : Type :=
| ValueError
| OverflowError.

Inductive result (A : Type) : Type :=
| Ok (a : A)
| Raise (e : exn).

Arguments Ok {A} a.
Arguments Raise {A} e.

Definition bind {A B : Type} (r : result A) (k : A -> result B) : result B :=
  match r with
  | Ok a => k a
  | Raise e => Raise e
  end.

Notation "x <- r ;; k" := (bind r (fun x => k))
  (at level 61, r at next level, right associativity).

Definition is_ok {A : Type} (r : result A) : bool :=
  match r with
  | Ok _ => true
  | Raise _ => false
  end.

(** ** Complex numbers (dtype complex128, with exact real components) *)

Record C : Type := mkC { re : R; im : R }.

Definition RtoC (x : R) : C := mkC x 0.
Definition Ci : C := mkC 0 1.
Definition Cadd (z w : C) : C := mkC (re z + re w) (im z + im w).
Definition Cneg (z : C) : C := mkC (- re z) (- im z).
Definition Cmul (z w : C) : C :=
  mkC (re z * re w - im z * im w) (re z * im w + im z * re w).
Definition Cscale (r : R) (z : C) : C := mkC (r * re z) (r * im z).
(** Complex modulus, [np.abs] on a complex entry. *)
Definition Cabs (z : C) : R := sqrt (re z * re z + im z * im z).
(** [np.exp] on a complex entry. *)
Definition Cexp (z : C) : C := mkC (exp (re z) * cos (im z)) (exp (re z) * sin (im z)).

(** ** Array entries: the operations NumPy offers on both dtypes *)

Class Scalar (A : Type) : Type := {
  szero : A;
  sadd : A -> A -> A;
  sneg : A -> A;
  smul : R -> A -> A;   (* a float64 entry times an entry of dtype A *)
  sabs : A -> R         (* np.abs *)
}.

#[export] Instance Scalar_R : Scalar R :=
  {| szero := 0; sadd := Rplus; sneg := Ropp; smul := Rmult; sabs := Rabs |}.

#[export] Instance Scalar_C : Scalar C :=
  {| szero := RtoC 0; sadd := Cadd; sneg := Cneg; smul := Cscale; sabs := Cabs |}.

(** ** 1-D arrays *)

Fixpoint zip_with {A B D : Type} (f : A -> B -> D) (u : list A) (v : list B) : list D :=
  match u, v with
  | a :: u', b :: v' => f a b :: zip_with f u' v'
  | _, _ => []
  end.

(** NumPy broadcasting of a binary elementwise operation on two 1-D arrays:
    equal lengths pair up, a length-1 operand is stretched, anything else
    raises ValueError. *)
Definition broadcast2 {A B D : Type} (f : A -> B -> D) (u : list A) (v : list B)
  : result (list D) :=
  if Nat.eqb (length u) (length v) then Ok (zip_with f u v)
  else match u, v with
       | [a], _ => Ok (map (f a) v)
       | _, [b] => Ok (map (fun a => f a b) u)
       | _, _ => Raise ValueError
       end.

Definition vneg {A : Type} `{Scalar A} (v : list A) : list A := map sneg v.

Definition vsum {A : Type} `{Scalar A} (v : list A) : A := fold_right sadd szero v.

(** Inner product of a float64 row with a 1-D array of dtype A. *)
Definition dot {A : Type} `{Scalar A} (r : list R) (x : list A) : A :=
  vsum (zip_with smul r x).

(** [np.linalg.norm] of a real 1-D array: the Euclidean norm. *)
Definition norm (v : list R) : R := sqrt (vsum (map (fun a => a * a) v)).

(** ** 2-D float64 arrays *)

Record matrix : Type := mkMat {
  shape0 : nat;
  shape1 : nat;
  rows : list (list R)
}.

Definition wf_matrix (M : matrix) : Prop :=
  length (rows M) = shape0 M /\ Forall (fun r => length r = shape1 M) (rows M).

Definition col (j : nat) (M : matrix) : list R := map (fun r => nth j r 0) (rows M).

(** [M.T] *)
Definition transpose (M : matrix) : matrix :=
  mkMat (shape1 M) (shape0 M) (map (fun j => col j M) (seq 0 (shape1 M))).

(** [M @ x] and [M.dot(x)] for a 1-D array x. *)
Definition matvec {A : Type} `{Scalar A} (M : matrix) (x : list A) : result (list A) :=
  if Nat.eqb (shape1 M) (length x) then Ok (map (fun r => dot r x) (rows M))
  else Raise ValueError.

(** [M @ N] for two 2-D arrays. *)
Definition matmul (M N : matrix) : result matrix :=
  if Nat.eqb (shape1 M) (shape0 N)
  then Ok (mkMat (shape0 M) (shape1 N)
             (map (fun r => map (fun j => dot r (col j N)) (seq 0 (shape1 N))) (rows M)))
  else Raise ValueError.

Definition identity (n : nat) : matrix :=
  mkMat n n (map (fun i => map (fun j => if Nat.eqb i j then 1 else 0) (seq 0 n)) (seq 0 n)).

(** Python's slice [:stop] on an axis of length len: the number of kept
    entries (a negative stop counts from the end, everything is clamped). *)
Definition slice_stop (stop : Z) (len : nat) : nat :=
  if (stop <? 0)%Z then Z.to_nat (Z.max 0 (Z.of_nat len + stop))
  else Z.to_nat (Z.min stop (Z.of_nat len)).

(** [M[:, :stop]] *)
Definition take_cols (stop : Z) (M : matrix) : matrix :=
  let k := slice_stop stop (shape1 M) in
  mkMat (shape0 M) k (map (firstn k) (rows M)).

(** ** NumPy primitives that the notebook calls but does not define

    The bit generator behind [np.random.default_rng] and the factorization
    [np.linalg.qr] are library code; the notebook's functions are modelled
    over any implementation of them. *)

Class Numpy : Type := {
  bitgen : Type;                           (* state of a seeded bit generator *)
  seed_bitgen : N -> bitgen;               (* the generator built from integer entropy *)
  next_double : bitgen -> R * bitgen;      (* one draw of Generator.random, in [0,1) *)
  linalg_qr : matrix -> matrix * matrix    (* np.linalg.qr *)
}.

(** What the notebook relies on from [np.linalg.qr] for a square argument:
    the first factor has the argument's shape and orthonormal columns. *)
Definition qr_contract (E : Numpy) : Prop :=
  forall A : matrix, wf_matrix A -> shape0 A = shape1 A ->
    let Q := fst (linalg_qr A) in
    wf_matrix Q /\ shape0 Q = shape0 A /\ shape1 Q = shape1 A /\
    matmul (transpose Q) Q = Ok (identity (shape1 Q)).

Section Notebook.

Context {E : Numpy}.

(** [np.random.default_rng(seed)]: an integer seed determines the generator;
    with [seed=None] NumPy pulls fresh entropy from the operating system,
    here the explicit argument [os]. *)
Definition default_rng (seed : option N) (os : N) : bitgen :=
  match seed with
  | Some s => seed_bitgen s
  | None => seed_bitgen os
  end.

(** [rng.random(n)] *)
Fixpoint rng_random (n : nat) (g : bitgen) : list R * bitgen :=
  match n with
  | O => ([], g)
  | S n' =>
      let (u, g1) := next_double g in
      let (us, g2) := rng_random n' g1 in
      (u :: us, g2)
  end.

Fixpoint rng_random_rows (r c : nat) (g : bitgen) : list (list R) * bitgen :=
  match r with
  | O => ([], g)
  | S r' =>
      let (row, g1) := rng_random c g in
      let (rest, g2) := rng_random_rows r' c g1 in
      (row :: rest, g2)
  end.

(** [rng.random((r, c))]: negative dimensions raise ValueError. *)
Definition rng_random2 (r c : Z) (g : bitgen) : result matrix :=
  if ((r <? 0) || (c <? 0))%Z then Raise ValueError
  else Ok (mkMat (Z.to_nat r) (Z.to_nat c)
             (fst (rng_random_rows (Z.to_nat r) (Z.to_nat c) g))).

(** <<
def randunif(n, a=0, b=1, seed=None):
    rng = np.random.default_rng(seed) # random number generator
    return (b-a) * rng.random(n) + a  # uniform distribution
>> *)
Definition randunif (n : nat) (a b : R) (seed : option N) (os : N) : list R :=
  let rng := default_rng seed os in
  map (fun u => (b - a) * u + a) (fst (rng_random n rng)).

(** *** Python numbers

    A Python number is an [int] (unbounded) or a [float]: an IEEE 754
    binary64 value, here a [spec_float] of precision 53 and maximal exponent
    1024, with the arithmetic of the Standard Library's specification of
    floating-point numbers (round to nearest, ties to even). *)
Inductive number : Type :=
| PyInt (z : Z)
| PyFloat (f : spec_float).

(** The float nearest to the dyadic number m * 2^e (infinite past the
    largest float). *)
Definition float64 (m e : Z) : spec_float := binary_normalize 53 1024 m e false.

(** The conversion of an [int] operand to [float] in mixed arithmetic:
    correctly rounded, OverflowError when the int is too large. *)
Definition float_of_int (n : Z) : result spec_float :=
  match float64 n 0 with
  | S754_infinity _ => Raise OverflowError
  | x => Ok x
  end.

(** [x * y] on Python numbers: exact on two ints, otherwise the binary64
    product after converting an int operand. *)
Definition py_mul (x y : number) : result number :=
  match x, y with
  | PyInt a, PyInt b => Ok (PyInt (a * b))
  | PyInt a, PyFloat g => f <- float_of_int a ;; Ok (PyFloat (SFmul 53 1024 f g))
  | PyFloat f, PyInt b => g <- float_of_int b ;; Ok (PyFloat (SFmul 53 1024 f g))
  | PyFloat f, PyFloat g => Ok (PyFloat (SFmul 53 1024 f g))
  end.

(** The rational value of a finite float (0 for the zeros). *)
Definition SF2Q (f : spec_float) : Q :=
  match f with
  | S754_finite s m e =>
      if (0 <=? e)%Z then inject_Z (cond_Zopp s (Zpos m) * 2 ^ e)
      else Qmake (cond_Zopp s (Zpos m)) (Pos.pow 2 (Z.to_pos (- e)))
  | _ => 0%Q
  end.

(** Truncation of a rational toward zero. *)
Definition int_of_Q (q : Q) : Z := Z.quot (Qnum q) (Zpos (Qden q)).

(** Python's [int(x)]: the identity on an int; on a float, truncation toward
    zero, OverflowError on an infinity and ValueError on NaN. *)
Definition py_int (x : number) : result Z :=
  match x with
  | PyInt z => Ok z
  | PyFloat S754_nan => Raise ValueError
  | PyFloat (S754_infinity _) => Raise OverflowError
  | PyFloat f => Ok (int_of_Q (SF2Q f))
  end.

(** The frame dimension chosen at the top of [random_frame]:
<<
    if frame_dimension is None:
        m = int(input_dimension * redundancy)
    else:
        m = frame_dimension
>>
    The input dimension and an explicit frame dimension are ints; the
    redundancy is an int (as the default 2) or a float. *)
Definition frame_dim (input_dimension : Z) (redundancy : number)
    (frame_dimension : option Z) : result Z :=
  match frame_dimension with
  | None => p <- py_mul (PyInt input_dimension) redundancy ;; py_int p
  | Some fd => Ok fd
  end.

(** <<
def random_frame(input_dimension, redundancy=2, frame_dimension=None, seed=None):
    n = input_dimension
    ...
    rng = np.random.default_rng(seed)
    rand_mat = rng.random((m,m))  # generate random matrix in m x m
    Q, _ = np.linalg.qr(rand_mat) # get orthonormal basis in Rm
    return Q[:,:n]                # get m x n frame matrix
>> *)
Definition random_frame (input_dimension : Z) (redundancy : number)
    (frame_dimension : option Z) (seed : option N) (os : N) : result matrix :=
  let n := input_dimension in
  m <- frame_dim input_dimension redundancy frame_dimension ;;
  let rng := default_rng seed os in
  rand_mat <- rng_random2 m m rng ;;
  let (Q, _) := linalg_qr rand_mat in
  Ok (take_cols n Q).

(** [np.angle] on a float64 entry: arctan2(0, x), that is pi below zero
    and 0 from zero on (the reals have no negative zero). *)
Definition angle (x : R) : R := if Rlt_dec x 0 then PI else 0.

(** <<
    err = lambda z : np.linalg.norm(np.abs(F.dot(z)) - magnitude)
>> *)
Definition err {A : Type} `{Scalar A} (F : matrix) (magnitude : list R) (z : list A)
  : result R :=
  Fz <- matvec F z ;;
  d <- broadcast2 Rminus (map sabs Fz) magnitude ;;
  Ok (norm d).

(** The back-projected candidate of one pass:
<<
        X0 = F @ x0
        Y0 = b * np.exp(1j * np.angle(X0))
        y0 = F.T @ Y0
>> *)
Definition gs_candidate (b : list R) (F : matrix) (x0 : list R) : result (list C) :=
  X0 <- matvec F x0 ;;
  Y0 <- broadcast2 (fun bk e => Cmul (RtoC bk) e) b
          (map (fun t => Cexp (Cmul Ci (RtoC t))) (map angle X0)) ;;
  matvec (transpose F) Y0.

(** <<
        x0 = y0 if err(y0) < err(-y0) else -y0
>> *)
Definition min_err (F : matrix) (magnitude : list R) (y0 : list C) : result (list C) :=
  e_pos <- err F magnitude y0 ;;
  e_neg <- err F magnitude (vneg y0) ;;
  Ok (if Rlt_dec e_pos e_neg then y0 else vneg y0).

(** One pass of the loop body, ending with [x0 = np.real(x0)]. *)
Definition gs_step (b magnitude : list R) (F : matrix) (x0 : list R) : result (list R) :=
  y0 <- gs_candidate b F x0 ;;
  x1 <- min_err F magnitude y0 ;;
  Ok (map re x1).

(** [for i in range(num_iter)]: the passes run one after the other; an
    exception leaves the loop. *)
Fixpoint for_each {S : Type} (body : nat -> S -> result S) (idx : list nat) (s : S)
  : result S :=
  match idx with
  | [] => Ok s
  | i :: idx' => s' <- body i s ;; for_each body idx' s'
  end.

Definition range (stop : Z) : list nat := seq 0 (Z.to_nat stop).

(** <<
def gs_phaseless(magnitude, frame, num_iter=200, seed=None):
    b = np.asarray(magnitude)
    F = np.asarray(frame)
    n = F.shape[1]
    x0 = randunif(n, -1, 1, seed=seed)
    ...
    for i in range(num_iter):
        ...
    return x0
>> *)
Definition gs_phaseless (magnitude : list R) (frame : matrix) (num_iter : Z)
    (seed : option N) (os : N) : result (list R) :=
  let b := magnitude in
  let F := frame in
  let n := shape1 F in
  let x0 := randunif n (-1) 1 seed os in
  for_each (fun _ x => gs_step b magnitude F x) (range num_iter) x0.

(** The result evaluator at the end of the main routine:
<<
err_pos = np.linalg.norm(x-x0)
err_neg = np.linalg.norm(x+x0)
x0 = -x0 if err_neg < err_pos else x0
err = np.min([err_pos, err_neg])
>> *)
Definition evaluate (x x0 : list R) : result (list R * R) :=
  d_pos <- broadcast2 Rminus x x0 ;;
  let err_pos := norm d_pos in
  d_neg <- broadcast2 Rplus x x0 ;;
  let err_neg := norm d_neg in
  let x0' := if Rlt_dec err_neg err_pos then vneg x0 else x0 in
  let err := Rmin err_pos err_neg in
  Ok (x0', err).

(** The constants of the main routine:
<<
n = 21
r = n/2 + 5
m = int(r*n)
>> *)
Definition main_n : Z := 21.
Definition main_r : number :=
  PyFloat (SFadd 53 1024 (SFdiv 53 1024 (float64 main_n 0) (float64 2 0)) (float64 5 0)).
Definition main_m : result Z := p <- py_mul main_r (PyInt main_n) ;; py_int p.

(** The main routine up to the reported error (the plot is left out):
<<
x = randunif(n, -1, 1, seed=1231)
F = random_frame(n, r, seed=1121)
magnitude = np.abs(F.dot(x))
x0 = gs_phaseless(magnitude, F, seed=4321)
>>
    followed by the evaluator. *)
Definition main_routine (os : N) : result (list R * R) :=
  let x := randunif (Z.to_nat main_n) (-1) 1 (Some 1231%N) os in
  F <- random_frame main_n main_r None (Some 1121%N) os ;;
  Fx <- matvec F x ;;
  let magnitude := map Rabs Fx in
  x0 <- gs_phaseless magnitude F 200 (Some 4321%N) os ;;
  evaluate x x0.

End Notebook.

(** ** Runs of the loop *)

(** [gs_passes b magnitude F k x x'] : starting from the iterate x, exactly k
    passes of the loop body run without raising and leave the iterate x'. *)
Inductive gs_passes (b magnitude : list R) (F : matrix)
  : nat -> list R -> list R -> Prop :=
| gs_passes_O : forall x, gs_passes b magnitude F O x x
| gs_passes_S : forall k x x1 x',
    gs_step b magnitude F x = Ok x1 ->
    gs_passes b magnitude F k x1 x' ->
    gs_passes b magnitude F (S k) x x'.

(** Orthonormal columns: [F.T @ F] is the identity of size [F.shape[1]]. *)
Definition orthonormal_cols (F : matrix) : Prop :=
  matmul (transpose F) F = Ok (identity (shape1 F)).

(** ** The simplified loop  x_{i+1} = Re(-F^T (b * exp(i * arg(F x_i))))

    Written from the closed formula, without the two residual evaluations
    and without the comparison. *)
Definition simplified_step (b : list R) (F : matrix) (x : list R) : result (list R) :=
  X <- matvec F x ;;
  Y <- broadcast2 (fun bk e => Cmul (RtoC bk) e) b
         (map (fun Xk => Cexp (Cmul Ci (RtoC (angle Xk)))) X) ;;
  y <- matvec (transpose F) Y ;;
  Ok (map (fun yk => re (Cneg yk)) y).

Definition gs_simplified {E : Numpy} (magnitude : list R) (frame : matrix) (num_iter : Z)
    (seed : option N) (os : N) : result (list R) :=
  for_each (fun _ x => simplified_step magnitude frame x) (range num_iter)
    (randunif (shape1 frame) (-1) 1 seed os).

(** ** Rounding to the nearest integer, as Python's [round] does
    (ties go to the even neighbour). *)
Definition round_half_even (q : Q) : Z :=
  let f := Qfloor q in
  match Qcompare (q - inject_Z f)%Q (1 # 2)%Q with
  | Lt => f
  | Gt => (f + 1)%Z
  | Eq => if Z.even f then f else (f + 1)%Z
  end.

(** ** A small implementation of the NumPy primitives for concrete runs

    The generator's state is a counter started at the seed; draws alternate
    between 1/4 and 3/4.  The factorization returns the identity as its
    orthogonal factor. *)
Definition counter_numpy : Numpy := {|
  bitgen := N;
  seed_bitgen := fun s => s;
  next_double := fun g => (if N.even g then 1 / 4 else 3 / 4, N.succ g);
  linalg_qr := fun A => (identity (shape0 A), A)
|}.

(** The 2-D array with the given rows, all of length c. *)
Definition array2 (c : nat) (rs : list (list R)) : matrix := mkMat (length rs) c rs.

(** [np.abs], [-], ... applied under a possible exception. *)
Definition rmap {A B : Type} (f : A -> B) (r : result A) : result B :=
  match r with
  | Ok a => Ok (f a)
  | Raise e => Raise e
  end.

(** The sign that a pass reads off a real entry: -1 below zero, +1 from
    zero on (the value of exp(1j * angle(t))). *)
Definition sgn (t : R) : R := if Rlt_dec t 0 then -1 else 1.

(** What the notebook relies on from [Generator.random]: every draw lies in
    the half-open interval [0, 1). *)
Definition rng_contract (E : Numpy) : Prop :=
  forall g : bitgen, 0 <= fst (next_double g) < 1.

(** Laws of the entry operations used below. *)
Class ScalarLaws (A : Type) `{Scalar A} : Prop := {
  sneg_zero : sneg szero = szero;
  sneg_add : forall a b : A, sneg (sadd a b) = sadd (sneg a) (sneg b);
  smul_neg : forall (r : R) (a : A), smul r (sneg a) = sneg (smul r a);
  sabs_neg : forall a : A, sabs (sneg a) = sabs a
}.

(** * Properties *)

(** ** Laws of the entry operations *)

Lemma C_eq : forall z w : C, re z = re w -> im z = im w -> z = w.
Proof. intros [a b] [c d]; simpl; intros -> ->; reflexivity. Qed.

Lemma Cabs_neg : forall z : C, Cabs (Cneg z) = Cabs z.
Proof. intros z; unfold Cabs, Cneg; simpl; f_equal; ring. Qed.

#[export] Instance ScalarLaws_R : ScalarLaws R.
Proof.
  split; simpl; intros.
  - ring.
  - ring.
  - ring.
  - apply Rabs_Ropp.
Qed.

#[export] Instance ScalarLaws_C : ScalarLaws C.
Proof.
  split; simpl; intros.
  - apply C_eq; simpl; ring.
  - apply C_eq; simpl; ring.
  - apply C_eq; simpl; ring.
  - apply Cabs_neg.
Qed.

(** ** Lists, broadcasting and shapes *)

Lemma zip_with_length : forall {A B D : Type} (f : A -> B -> D) u v,
  length u = length v -> length (zip_with f u v) = length u.
Proof.
  intros A B D f u; induction u as [|a u IH]; intros [|b v] Hl; simpl in *; try lia.
  rewrite IH; lia.
Qed.

Lemma broadcast2_ok_iff : forall {A B D : Type} (f : A -> B -> D) u v,
  is_ok (broadcast2 f u v) = true <->
  (length u = length v \/ length u = 1%nat \/ length v = 1%nat).
Proof.
  intros A B D f u v; unfold broadcast2.
  destruct (Nat.eqb_spec (length u) (length v)) as [Heq|Hne]; simpl.
  - split; auto.
  - destruct u as [|a [|a' u]]; destruct v as [|b [|b' v]]; simpl in *;
      split; intros Hx; try reflexivity; try discriminate;
      try (right; left; reflexivity); try (right; right; reflexivity);
      try (exfalso; lia).
Qed.

Lemma broadcast2_length : forall {A B D : Type} (f : A -> B -> D) u v w,
  broadcast2 f u v = Ok w ->
  length w = (if Nat.eqb (length u) 1 then length v else length u).
Proof.
  intros A B D f u v w; unfold broadcast2.
  destruct (Nat.eqb_spec (length u) (length v)) as [Heq|Hne].
  - intros Hw; injection Hw as <-. rewrite zip_with_length by assumption.
    destruct (Nat.eqb_spec (length u) 1); lia.
  - destruct u as [|a [|a' u]]; destruct v as [|b [|b' v]]; simpl in *;
      intros Hw; try discriminate; injection Hw as <-; simpl;
      rewrite ?length_map; simpl; try lia.
Qed.

Lemma is_ok_true : forall {A : Type} (r : result A),
  is_ok r = true -> exists a, r = Ok a.
Proof. intros A [a|e]; simpl; intros Hr; [exists a; reflexivity | discriminate]. Qed.

Lemma matvec_length : forall {A : Type} `{Scalar A} (M : matrix) (x y : list A),
  matvec M x = Ok y -> length y = length (rows M).
Proof.
  intros A SA M x y; unfold matvec.
  destruct (Nat.eqb (shape1 M) (length x)); intros Hy; [|discriminate].
  injection Hy as <-. apply length_map.
Qed.

Lemma transpose_rows_length : forall M, length (rows (transpose M)) = shape1 M.
Proof. intros M; simpl. rewrite length_map, length_seq. reflexivity. Qed.

(** ** Negating the argument of the analysis operator *)

Lemma zip_with_smul_vneg : forall {A : Type} `{ScalarLaws A} (r : list R) (x : list A),
  zip_with smul r (vneg x) = vneg (zip_with smul r x).
Proof.
  intros A SA LA r; induction r as [|a r IH]; intros [|b x]; simpl; try reflexivity.
  rewrite smul_neg. f_equal. apply IH.
Qed.

Lemma vsum_vneg : forall {A : Type} `{ScalarLaws A} (v : list A),
  vsum (vneg v) = sneg (vsum v).
Proof.
  intros A SA LA v; unfold vsum, vneg; induction v as [|a v IH]; simpl.
  - symmetry; apply sneg_zero.
  - rewrite IH. symmetry; apply sneg_add.
Qed.

Lemma dot_vneg : forall {A : Type} `{ScalarLaws A} (r : list R) (x : list A),
  dot r (vneg x) = sneg (dot r x).
Proof. intros; unfold dot. rewrite zip_with_smul_vneg. apply vsum_vneg. Qed.

Lemma matvec_vneg : forall {A : Type} `{ScalarLaws A} (M : matrix) (x : list A),
  matvec M (vneg x) = rmap vneg (matvec M x).
Proof.
  intros A SA LA M x; unfold matvec, vneg at 1. rewrite length_map.
  destruct (Nat.eqb (shape1 M) (length x)); simpl; [|reflexivity].
  f_equal. unfold vneg. rewrite map_map. apply map_ext. intros r. apply dot_vneg.
Qed.

Lemma map_sabs_vneg : forall {A : Type} `{ScalarLaws A} (v : list A),
  map sabs (vneg v) = map sabs v.
Proof.
  intros; unfold vneg. rewrite map_map. apply map_ext. intros a. apply sabs_neg.
Qed.

(** C5. For every real matrix F and real vector z, the elementwise magnitude
    of F z equals that of F (-z); both products are defined whenever z has as
    many entries as F has columns. *)
Theorem magnitude_sign_invariant : forall (F : matrix) (z : list R),
  rmap (map Rabs) (matvec F (vneg z)) = rmap (map Rabs) (matvec F z) /\
  (shape1 F = length z ->
   exists u v, matvec F z = Ok u /\ matvec F (vneg z) = Ok v /\
               length u = length (rows F) /\ map Rabs u = map Rabs v).
Proof.
  intros F z. rewrite matvec_vneg. split.
  - destruct (matvec F z) as [u|e]; simpl; [|reflexivity].
    f_equal. exact (@map_sabs_vneg R Scalar_R ScalarLaws_R u).
  - intros Hs. unfold matvec. rewrite Hs, Nat.eqb_refl. simpl.
    eexists; eexists; repeat split.
    + apply length_map.
    + symmetry. exact (@map_sabs_vneg R Scalar_R ScalarLaws_R _).
Qed.

(** ** The two residuals of a pass are always equal *)

Lemma err_vneg : forall {A : Type} `{ScalarLaws A} (F : matrix) (magnitude : list R)
    (z : list A),
  err F magnitude (vneg z) = err F magnitude z.
Proof.
  intros A SA LA F magnitude z; unfold err. rewrite matvec_vneg.
  destruct (matvec F z) as [u|e]; simpl; [|reflexivity].
  rewrite map_sabs_vneg. reflexivity.
Qed.

Lemma min_err_negates : forall (F : matrix) (magnitude : list R) (y0 : list C),
  min_err F magnitude y0 = (e <- err F magnitude y0 ;; Ok (vneg y0)).
Proof.
  intros F magnitude y0; unfold min_err. rewrite err_vneg.
  destruct (err F magnitude y0) as [e|x]; simpl; [|reflexivity].
  destruct (Rlt_dec e e) as [Hlt|_]; [exfalso; lra | reflexivity].
Qed.

Lemma gs_candidate_length : forall b F x y0,
  gs_candidate b F x = Ok y0 -> length y0 = shape1 F.
Proof.
  intros b F x y0; unfold gs_candidate.
  destruct (matvec F x) as [X0|e]; simpl; [|discriminate].
  destruct (broadcast2 _ b _) as [Y0|e]; simpl; [|discriminate].
  intros Hy. apply matvec_length in Hy. rewrite Hy. apply transpose_rows_length.
Qed.

(** Whenever the candidate of a pass could be computed, so can its residual
    against the same magnitudes. *)
Lemma gs_candidate_err_ok : forall b F x y0,
  gs_candidate b F x = Ok y0 -> exists e, err F b y0 = Ok e.
Proof.
  intros b F x y0 Hc. pose proof (gs_candidate_length _ _ _ _ Hc) as Hlen.
  unfold gs_candidate in Hc.
  destruct (matvec F x) as [X0|e] eqn:HX; simpl in Hc; [|discriminate].
  destruct (broadcast2 _ b _) as [Y0|e] eqn:HY; simpl in Hc; [|discriminate].
  assert (Hb : is_ok (broadcast2 (fun bk e => Cmul (RtoC bk) e) b
             (map (fun t => Cexp (Cmul Ci (RtoC t))) (map angle X0))) = true)
    by (rewrite HY; reflexivity).
  apply broadcast2_ok_iff in Hb. rewrite !length_map in Hb.
  apply matvec_length in HX.
  unfold err, matvec. rewrite Hlen, Nat.eqb_refl. simpl.
  destruct (broadcast2 Rminus (map Cabs (map (fun r => dot r y0) (rows F))) b)
    as [d|e] eqn:Hd; simpl.
  - exists (norm d). reflexivity.
  - exfalso.
    assert (Hok : is_ok (broadcast2 Rminus
              (map Cabs (map (fun r => dot r y0) (rows F))) b) = true).
    { apply broadcast2_ok_iff. rewrite !length_map. lia. }
    rewrite Hd in Hok. discriminate.
Qed.

Lemma gs_candidate_unfold : forall b F x,
  gs_candidate b F x =
  (X <- matvec F x ;;
   Y <- broadcast2 (fun bk e => Cmul (RtoC bk) e) b
          (map (fun Xk => Cexp (Cmul Ci (RtoC (angle Xk)))) X) ;;
   matvec (transpose F) Y).
Proof.
  intros b F x; unfold gs_candidate.
  destruct (matvec F x) as [X0|e]; cbn [bind]; [|reflexivity].
  rewrite map_map. reflexivity.
Qed.

Lemma gs_step_simplified : forall b F x, gs_step b b F x = simplified_step b F x.
Proof.
  intros b F x; unfold gs_step, simplified_step.
  destruct (gs_candidate b F x) as [y0|e] eqn:Hc.
  - destruct (gs_candidate_err_ok _ _ _ _ Hc) as [r Hr].
    cbn [bind]. rewrite min_err_negates, Hr. cbn [bind].
    rewrite gs_candidate_unfold in Hc.
    destruct (matvec F x) as [X0|e]; cbn [bind] in *; [|discriminate].
    destruct (broadcast2 _ b _) as [Y0|e]; cbn [bind] in *; [|discriminate].
    rewrite Hc. cbn [bind]. unfold vneg. rewrite map_map. reflexivity.
  - cbn [bind]. rewrite gs_candidate_unfold in Hc.
    destruct (matvec F x) as [X0|e0]; cbn [bind] in *; [|congruence].
    destruct (broadcast2 _ b _) as [Y0|e0]; cbn [bind] in *; [|congruence].
    rewrite Hc. reflexivity.
Qed.

Lemma for_each_ext : forall {S : Type} (f g : nat -> S -> result S) idx s,
  (forall i x, f i x = g i x) -> for_each f idx s = for_each g idx s.
Proof.
  intros S f g idx; induction idx as [|i idx IH]; intros s Hfg; simpl.
  - reflexivity.
  - rewrite Hfg. destruct (g i s) as [s'|e]; simpl; [apply IH; assumption | reflexivity].
Qed.

(** C6. In every pass the residuals of y0 and of -y0 are the same number, the
    comparison err(y0) < err(-y0) is false, the negated candidate is selected,
    and gs_phaseless computes exactly what the simplified loop
    x_{i+1} = Re(-F^T (b * exp(i * arg(F x_i)))) computes. *)
Theorem gs_phaseless_is_simplified_loop :
  forall {E : Numpy} (magnitude : list R) (F : matrix) (num_iter : Z)
         (seed : option N) (os : N),
  gs_phaseless magnitude F num_iter seed os = gs_simplified magnitude F num_iter seed os /\
  (forall x y0, gs_candidate magnitude F x = Ok y0 ->
     exists e, err F magnitude y0 = Ok e /\ err F magnitude (vneg y0) = Ok e /\
               ~ e < e /\ min_err F magnitude y0 = Ok (vneg y0)).
Proof.
  intros E magnitude F num_iter seed os. split.
  - unfold gs_phaseless, gs_simplified. apply for_each_ext.
    intros _ x. apply gs_step_simplified.
  - intros x y0 Hc. destruct (gs_candidate_err_ok _ _ _ _ Hc) as [e He].
    exists e. rewrite err_vneg, min_err_negates, He. simpl.
    repeat split; try reflexivity. lra.
Qed.

(** ** The phase factor of a real entry is its sign *)

Lemma phase_of_real : forall t : R, Cexp (Cmul Ci (RtoC (angle t))) = RtoC (sgn t).
Proof.
  intros t; unfold angle, sgn. destruct (Rlt_dec t 0) as [Hneg|Hpos];
    apply C_eq; simpl.
  - replace (0 * PI - 1 * 0) with 0 by ring.
    replace (0 * 0 + 1 * PI) with PI by ring.
    rewrite exp_0, cos_PI. ring.
  - replace (0 * PI - 1 * 0) with 0 by ring.
    replace (0 * 0 + 1 * PI) with PI by ring.
    rewrite exp_0, sin_PI. ring.
  - replace (0 * 0 - 1 * 0) with 0 by ring.
    replace (0 * 0 + 1 * 0) with 0 by ring.
    rewrite exp_0, cos_0. ring.
  - replace (0 * 0 - 1 * 0) with 0 by ring.
    replace (0 * 0 + 1 * 0) with 0 by ring.
    rewrite exp_0, sin_0. ring.
Qed.

Lemma Cmul_RtoC : forall a s : R, Cmul (RtoC a) (RtoC s) = RtoC (a * s).
Proof. intros a s; apply C_eq; simpl; ring. Qed.

Lemma sgn_nonneg : forall t, 0 <= t -> sgn t = 1.
Proof. intros t Ht; unfold sgn. destruct (Rlt_dec t 0); [lra | reflexivity]. Qed.

Lemma sgn_neg : forall t, t < 0 -> sgn t = -1.
Proof. intros t Ht; unfold sgn. destruct (Rlt_dec t 0); [reflexivity | lra]. Qed.

(** ** The choice between y0 and -y0 *)

Lemma Cabs_RtoC : forall a : R, Cabs (RtoC a) = Rabs a.
Proof.
  intros a; unfold Cabs; simpl.
  replace (a * a + 0 * 0) with (Rsqr a) by (unfold Rsqr; ring).
  apply sqrt_Rsqr_abs.
Qed.

Lemma norm_single_zero : norm [0] = 0.
Proof.
  unfold norm; simpl. replace (0 * 0 + 0) with 0 by ring. apply sqrt_0.
Qed.

(** The pass from x0 = [1/2] with the 1 x 1 frame [[1]] and b = [1]:
    the candidate is [1], both residuals are 0, and the loop keeps -y0. *)
Lemma unit_frame_candidate :
  gs_candidate [1] (array2 1 [[1]]) [1 / 2] = Ok [RtoC 1].
Proof.
  rewrite gs_candidate_unfold. unfold matvec; simpl.
  rewrite phase_of_real, Cmul_RtoC, sgn_nonneg by (unfold dot; simpl; lra).
  unfold matvec; simpl. f_equal. f_equal.
  apply C_eq; unfold dot; simpl; ring.
Qed.

Lemma unit_frame_err : forall s : R, Rabs s = 1 ->
  err (array2 1 [[1]]) [1] [RtoC s] = Ok 0.
Proof.
  intros s Hs. unfold err, matvec; simpl.
  replace (dot [1] [RtoC s]) with (RtoC s) by (apply C_eq; unfold dot; simpl; ring).
  unfold broadcast2; simpl. rewrite Cabs_RtoC, Hs.
  replace (1 - 1) with 0 by ring. rewrite norm_single_zero. reflexivity.
Qed.

(** C2, counterexample.  With F = [[1]], b = [1] and iterate [1/2] the two
    residuals tie (both are 0), and the pass keeps the negated candidate -y0,
    which differs from y0; the next iterate is [-1]. *)
Lemma tie_selects_negated_candidate :
  let F := array2 1 [[1]] in
  let y0 := [RtoC 1] in
  gs_candidate [1] F [1 / 2] = Ok y0 /\
  err F [1] y0 = Ok 0 /\
  err F [1] (vneg y0) = Ok 0 /\
  min_err F [1] y0 = Ok (vneg y0) /\
  min_err F [1] y0 <> Ok y0 /\
  gs_step [1] [1] F [1 / 2] = Ok [-(1)].
Proof.
  cbv zeta.
  assert (He : err (array2 1 [[1]]) [1] [RtoC 1] = Ok 0)
    by (apply unit_frame_err; apply Rabs_R1).
  assert (Hm : min_err (array2 1 [[1]]) [1] [RtoC 1] = Ok (vneg [RtoC 1]))
    by (rewrite min_err_negates, He; reflexivity).
  repeat split.
  - apply unit_frame_candidate.
  - exact He.
  - rewrite err_vneg. exact He.
  - exact Hm.
  - rewrite Hm. simpl. intros Heq. injection Heq as Hre _. lra.
  - unfold gs_step. rewrite unit_frame_candidate. cbn [bind].
    rewrite Hm. reflexivity.
Qed.

(** C2 (amended).  The pass keeps y0 exactly when its residual is strictly
    smaller than the residual of -y0, and keeps -y0 otherwise; on an exact tie
    the negated candidate -y0 is the one selected. *)
Theorem min_err_selection :
  forall (F : matrix) (magnitude : list R) (y0 : list C) (e_pos e_neg : R),
  err F magnitude y0 = Ok e_pos ->
  err F magnitude (vneg y0) = Ok e_neg ->
  (e_pos < e_neg -> min_err F magnitude y0 = Ok y0) /\
  (e_neg < e_pos -> min_err F magnitude y0 = Ok (vneg y0)) /\
  (e_pos = e_neg -> min_err F magnitude y0 = Ok (vneg y0)).
Proof.
  intros F magnitude y0 e_pos e_neg Hp Hn. unfold min_err. rewrite Hp, Hn. cbn [bind].
  destruct (Rlt_dec e_pos e_neg) as [Hlt|Hge]; repeat split; intros Hc;
    try reflexivity; exfalso; lra.
Qed.

Lemma min_err_selection_witness :
  min_err (array2 1 [[1]]) [1] [RtoC 1] = Ok (vneg [RtoC 1]).
Proof.
  assert (He : err (array2 1 [[1]]) [1] [RtoC 1] = Ok 0)
    by (apply unit_frame_err; apply Rabs_R1).
  assert (Hn : err (array2 1 [[1]]) [1] (vneg [RtoC 1]) = Ok 0)
    by (rewrite err_vneg; exact He).
  exact (proj2 (proj2 (min_err_selection _ _ _ 0 0 He Hn)) eq_refl).
Defined.

(** ** The result evaluator under a sign flip of the estimate *)

Lemma zip_with_map_r : forall {A B B' D : Type} (f : A -> B' -> D) (g : B -> B') u v,
  zip_with f u (map g v) = zip_with (fun a b => f a (g b)) u v.
Proof.
  intros A B B' D f g u; induction u as [|a u IH]; intros [|b v]; simpl; try reflexivity.
  f_equal. apply IH.
Qed.

Lemma zip_with_ext : forall {A B D : Type} (f g : A -> B -> D) u v,
  (forall a b, f a b = g a b) -> zip_with f u v = zip_with g u v.
Proof.
  intros A B D f g u; induction u as [|a u IH]; intros [|b v] Hfg; simpl; try reflexivity.
  rewrite Hfg. f_equal. apply IH. assumption.
Qed.

Lemma broadcast2_map_r : forall {A B B' D : Type} (f : A -> B' -> D) (g : B -> B') u v,
  broadcast2 f u (map g v) = broadcast2 (fun a b => f a (g b)) u v.
Proof.
  intros A B B' D f g u v; unfold broadcast2. rewrite length_map.
  destruct (Nat.eqb (length u) (length v)).
  - rewrite zip_with_map_r. reflexivity.
  - destruct u as [|a [|a' u]]; destruct v as [|b [|b' v]]; simpl; try reflexivity;
      rewrite map_map; reflexivity.
Qed.

Lemma broadcast2_ext : forall {A B D : Type} (f g : A -> B -> D) u v,
  (forall a b, f a b = g a b) -> broadcast2 f u v = broadcast2 g u v.
Proof.
  intros A B D f g u v Hfg; unfold broadcast2.
  destruct (Nat.eqb (length u) (length v)).
  - rewrite (zip_with_ext f g) by assumption. reflexivity.
  - destruct u as [|a [|a' u]]; destruct v as [|b [|b' v]]; cbv beta iota;
      try reflexivity; apply f_equal; apply map_ext; intros; apply Hfg.
Qed.

Lemma evaluate_vneg : forall x x0 : list R,
  evaluate x (vneg x0) =
  (d_neg <- broadcast2 Rplus x x0 ;;
   d_pos <- broadcast2 Rminus x x0 ;;
   Ok (if Rlt_dec (norm d_pos) (norm d_neg) then vneg (vneg x0) else vneg x0,
       Rmin (norm d_neg) (norm d_pos))).
Proof.
  intros x x0; unfold evaluate, vneg at 1 2.
  rewrite !broadcast2_map_r.
  rewrite (broadcast2_ext (fun a b => a - sneg b) Rplus) by (intros; simpl; ring).
  rewrite (broadcast2_ext (fun a b => a + sneg b) Rminus) by (intros; simpl; ring).
  reflexivity.
Qed.

Lemma vneg_vneg : forall v : list R, vneg (vneg v) = v.
Proof.
  intros v; unfold vneg. rewrite map_map. rewrite <- (map_id v) at 2.
  apply map_ext. intros a; simpl. ring.
Qed.

Lemma norm_single : forall a : R, norm [a] = Rabs a.
Proof.
  intros a; unfold norm; simpl.
  replace (a * a + 0) with (Rsqr a) by (unfold Rsqr; ring).
  apply sqrt_Rsqr_abs.
Qed.

Lemma evaluate_unit_tie :
  evaluate [0] [1] = Ok ([1], 1) /\ evaluate [0] (vneg [1]) = Ok ([-(1)], 1).
Proof.
  assert (Hp : norm [0 - 1] = 1)
    by (rewrite norm_single; replace (0 - 1) with (-(1)) by ring;
        rewrite Rabs_Ropp; apply Rabs_R1).
  assert (Hn : norm [0 + 1] = 1)
    by (rewrite norm_single; replace (0 + 1) with 1 by ring; apply Rabs_R1).
  split.
  - unfold evaluate, broadcast2; simpl. rewrite Hp, Hn.
    destruct (Rlt_dec 1 1) as [Hlt|_]; [exfalso; lra|].
    rewrite Rmin_left by lra. reflexivity.
  - rewrite evaluate_vneg. unfold broadcast2; simpl. rewrite Hp, Hn.
    destruct (Rlt_dec 1 1) as [Hlt|_]; [exfalso; lra|].
    rewrite Rmin_left by lra. reflexivity.
Qed.

(** C7, counterexample.  For the ground truth [0] and the estimate [1] the two
    distances tie (both are 1): the evaluator keeps the estimate it is given,
    so (x, x^) yields [1] and (x, -x^) yields [-1]. *)
Lemma evaluate_tie_keeps_given_sign :
  evaluate [0] [1] = Ok ([1], 1) /\
  evaluate [0] (vneg [1]) = Ok ([-(1)], 1) /\
  [1] <> [-(1)].
Proof.
  destruct evaluate_unit_tie as [H1 H2]. repeat split; try assumption.
  intros Heq. injection Heq as Heq. lra.
Qed.

(** C7 (amended).  Evaluating (x, x^) and (x, -x^) reports the same error
    min(|x - x^|, |x + x^|); the corrected estimate is the same whenever the
    two distances differ, and when they tie each call returns the estimate it
    was given, so the two corrected estimates are negatives of each other. *)
Theorem evaluate_sign_flip :
  forall (x x0 c : list R) (e : R),
  evaluate x x0 = Ok (c, e) ->
  exists c' d_pos d_neg,
    evaluate x (vneg x0) = Ok (c', e) /\
    broadcast2 Rminus x x0 = Ok d_pos /\
    broadcast2 Rplus x x0 = Ok d_neg /\
    e = Rmin (norm d_pos) (norm d_neg) /\
    c = (if Rlt_dec (norm d_neg) (norm d_pos) then vneg x0 else x0) /\
    (norm d_pos <> norm d_neg -> c' = c) /\
    (norm d_pos = norm d_neg -> c = x0 /\ c' = vneg x0).
Proof.
  intros x x0 c e He. rewrite evaluate_vneg. unfold evaluate in He.
  destruct (broadcast2 Rminus x x0) as [d_pos|ex]; cbn [bind] in He; [|discriminate].
  destruct (broadcast2 Rplus x x0) as [d_neg|ex]; cbn [bind] in He; [|discriminate].
  injection He as Hc He. cbn [bind].
  exists (if Rlt_dec (norm d_pos) (norm d_neg) then vneg (vneg x0) else vneg x0),
    d_pos, d_neg.
  rewrite (Rmin_comm (norm d_neg)), He, vneg_vneg.
  repeat split; try (symmetry; assumption).
  - intros Hne. subst c.
    destruct (Rlt_dec (norm d_pos) (norm d_neg)); destruct (Rlt_dec (norm d_neg) (norm d_pos));
      try reflexivity; exfalso; lra.
  - subst c. destruct (Rlt_dec (norm d_neg) (norm d_pos)); [exfalso; lra | reflexivity].
  - destruct (Rlt_dec (norm d_pos) (norm d_neg)); [exfalso; lra | reflexivity].
Qed.

Lemma evaluate_sign_flip_witness :
  exists c' d_pos d_neg,
    evaluate [0] (vneg [1]) = Ok (c', 1) /\
    broadcast2 Rminus [0] [1] = Ok d_pos /\
    broadcast2 Rplus [0] [1] = Ok d_neg /\
    1 = Rmin (norm d_pos) (norm d_neg) /\
    [1] = (if Rlt_dec (norm d_neg) (norm d_pos) then vneg [1] else [1]) /\
    (norm d_pos <> norm d_neg -> c' = [1]) /\
    (norm d_pos = norm d_neg -> [1] = [1] /\ c' = vneg [1]).
Proof.
  exact (evaluate_sign_flip [0] [1] [1] 1 (proj1 evaluate_unit_tie)).
Defined.

(** ** Determinism under a seed *)

(** With [seed=None] the output does depend on the entropy the operating
    system supplies: the model is not blind to it. *)
Lemma unseeded_randunif_depends_on_entropy :
  randunif (E:=counter_numpy) 1 0 1 None 0 = [(1 - 0) * (1 / 4) + 0] /\
  randunif (E:=counter_numpy) 1 0 1 None 1 = [(1 - 0) * (3 / 4) + 0].
Proof. split; reflexivity. Qed.

(** C10. With a fixed integer seed and the same remaining arguments,
    [randunif], [random_frame] and [gs_phaseless] return the same output on
    any two calls, whatever entropy the operating system would supply to each
    call. *)
Theorem seeded_calls_are_deterministic :
  forall {E : Numpy} (s : N) (os1 os2 : N),
  (forall (n : nat) (a b : R),
     randunif n a b (Some s) os1 = randunif n a b (Some s) os2) /\
  (forall (input_dimension : Z) (redundancy : number) (frame_dimension : option Z),
     random_frame input_dimension redundancy frame_dimension (Some s) os1 =
     random_frame input_dimension redundancy frame_dimension (Some s) os2) /\
  (forall (magnitude : list R) (frame : matrix) (num_iter : Z),
     gs_phaseless magnitude frame num_iter (Some s) os1 =
     gs_phaseless magnitude frame num_iter (Some s) os2).
Proof.
  intros E s os1 os2.
  assert (Hrng : default_rng (Some s) os1 = default_rng (Some s) os2) by reflexivity.
  split; [|split]; intros.
  - unfold randunif. rewrite Hrng. reflexivity.
  - unfold random_frame. rewrite Hrng. reflexivity.
  - unfold gs_phaseless, randunif. rewrite Hrng. reflexivity.
Qed.

(** ** Shapes along a run *)

Lemma rng_random_length : forall {E : Numpy} (n : nat) (g : bitgen),
  length (fst (rng_random n g)) = n.
Proof.
  intros E n; induction n as [|n IH]; intros g; simpl.
  - reflexivity.
  - destruct (next_double g) as [u g1]. specialize (IH g1).
    destruct (rng_random n g1) as [us g2]. simpl in *. rewrite IH. reflexivity.
Qed.

Lemma randunif_length : forall {E : Numpy} n a b seed os,
  length (randunif n a b seed os) = n.
Proof. intros; unfold randunif. rewrite length_map. apply rng_random_length. Qed.

Lemma gs_candidate_ok : forall b F x,
  length (rows F) = shape0 F -> shape1 F = length x ->
  (length b = shape0 F \/ length b = 1%nat) ->
  exists y0, gs_candidate b F x = Ok y0.
Proof.
  intros b F x Hrows Hx Hb. rewrite gs_candidate_unfold.
  unfold matvec at 1. rewrite Hx, Nat.eqb_refl. cbn [bind].
  destruct (broadcast2 (fun bk e => Cmul (RtoC bk) e) b
      (map (fun Xk => Cexp (Cmul Ci (RtoC (angle Xk))))
         (map (fun r => dot r x) (rows F)))) as [Y0|e] eqn:HY; cbn [bind].
  - apply broadcast2_length in HY. rewrite !length_map, Hrows in HY.
    unfold matvec. simpl.
    assert (HlY : length Y0 = shape0 F).
    { destruct Hb as [Hb|Hb]; rewrite Hb in HY.
      - destruct (Nat.eqb (shape0 F) 1); assumption.
      - simpl in HY. assumption. }
    rewrite HlY, Nat.eqb_refl. eexists; reflexivity.
  - exfalso.
    assert (Hok : is_ok (broadcast2 (fun bk e => Cmul (RtoC bk) e) b
      (map (fun Xk => Cexp (Cmul Ci (RtoC (angle Xk))))
         (map (fun r => dot r x) (rows F)))) = true).
    { apply broadcast2_ok_iff. rewrite !length_map, Hrows. lia. }
    rewrite HY in Hok. discriminate.
Qed.

Lemma gs_step_ok : forall b F x,
  length (rows F) = shape0 F -> shape1 F = length x ->
  (length b = shape0 F \/ length b = 1%nat) ->
  exists x1, gs_step b b F x = Ok x1 /\ length x1 = shape1 F.
Proof.
  intros b F x Hrows Hx Hb.
  destruct (gs_candidate_ok b F x Hrows Hx Hb) as [y0 Hy].
  destruct (gs_candidate_err_ok _ _ _ _ Hy) as [e He].
  unfold gs_step. rewrite Hy. cbn [bind]. rewrite min_err_negates, He. cbn [bind].
  eexists; split; [reflexivity|].
  unfold vneg. rewrite !length_map. apply (gs_candidate_length _ _ _ _ Hy).
Qed.

Lemma broadcast2_raises : forall {A B D : Type} (f : A -> B -> D) u v e,
  broadcast2 f u v = Raise e -> e = ValueError.
Proof.
  intros A B D f u v e; unfold broadcast2.
  destruct (Nat.eqb (length u) (length v)); [discriminate|].
  destruct u as [|a [|a' u]]; destruct v as [|b [|b' v]]; intros H;
    try discriminate; injection H as <-; reflexivity.
Qed.

Lemma gs_step_raises : forall b F x,
  length (rows F) = shape0 F -> shape1 F = length x ->
  length b <> shape0 F -> length b <> 1%nat ->
  gs_step b b F x = Raise ValueError.
Proof.
  intros b F x Hrows Hx Hb Hb1. unfold gs_step. rewrite gs_candidate_unfold.
  unfold matvec at 1. rewrite Hx, Nat.eqb_refl. cbn [bind].
  destruct (broadcast2 (fun bk e => Cmul (RtoC bk) e) b
      (map (fun Xk => Cexp (Cmul Ci (RtoC (angle Xk))))
         (map (fun r => dot r x) (rows F)))) as [Y0|e] eqn:HY; cbn [bind].
  - pose proof (broadcast2_length _ _ _ _ HY) as HlY.
    rewrite !length_map, Hrows in HlY.
    assert (Hok : is_ok (broadcast2 (fun bk e => Cmul (RtoC bk) e) b
      (map (fun Xk => Cexp (Cmul Ci (RtoC (angle Xk))))
         (map (fun r => dot r x) (rows F)))) = true) by (rewrite HY; reflexivity).
    apply broadcast2_ok_iff in Hok. rewrite !length_map, Hrows in Hok.
    destruct (Nat.eqb_spec (length b) 1) as [H1|_]; [contradiction|].
    unfold matvec. simpl.
    destruct (Nat.eqb_spec (shape0 F) (length Y0)) as [Heq|_]; [exfalso; lia|].
    reflexivity.
  - rewrite (broadcast2_raises _ _ _ _ HY). reflexivity.
Qed.

Lemma for_each_passes : forall b magnitude F k s x,
  for_each (fun _ x => gs_step b magnitude F x) (seq s k) x =
  match k with
  | O => Ok x
  | S k' => x1 <- gs_step b magnitude F x ;;
            for_each (fun _ x => gs_step b magnitude F x) (seq (S s) k') x1
  end.
Proof. intros b magnitude F [|k] s x; reflexivity. Qed.

Lemma gs_loop_total : forall b F k s x,
  length (rows F) = shape0 F -> shape1 F = length x ->
  (length b = shape0 F \/ length b = 1%nat) ->
  exists x', for_each (fun _ x => gs_step b b F x) (seq s k) x = Ok x' /\
             gs_passes b b F k x x' /\ length x' = shape1 F.
Proof.
  intros b F k; induction k as [|k IH]; intros s x Hrows Hx Hb.
  - exists x. repeat split; [constructor | symmetry; assumption].
  - destruct (gs_step_ok b F x Hrows Hx Hb) as [x1 [H1 Hl1]].
    destruct (IH (S s) x1 Hrows (eq_sym Hl1) Hb) as [x' [Hrun [Hp Hl]]].
    exists x'. rewrite for_each_passes, H1. cbn [bind].
    repeat split; try assumption. econstructor; eassumption.
Qed.

Lemma gs_loop_raises : forall b F k s x,
  length (rows F) = shape0 F -> shape1 F = length x ->
  length b <> shape0 F -> length b <> 1%nat ->
  for_each (fun _ x => gs_step b b F x) (seq s (S k)) x = Raise ValueError.
Proof.
  intros b F k s x Hrows Hx Hb Hb1.
  rewrite for_each_passes, gs_step_raises by assumption. reflexivity.
Qed.

Lemma gs_passes_deterministic : forall b magnitude F k x x1 x2,
  gs_passes b magnitude F k x x1 -> gs_passes b magnitude F k x x2 -> x1 = x2.
Proof.
  intros b magnitude F k x x1 x2 H1; revert x2.
  induction H1 as [x|k x y x1 Hstep Hrest IH]; intros x2 H2; inversion H2; subst.
  - reflexivity.
  - apply IH. congruence.
Qed.

Lemma wf_array2 : forall c rs,
  Forall (fun r => length r = c) rs -> wf_matrix (array2 c rs).
Proof. intros c rs Hrs; split; [reflexivity | exact Hrs]. Qed.

(** C8, counterexample.  With a magnitude vector of length 3 against a frame
    with 2 rows and num_iter = 2, the first pass raises ValueError: the loop
    is left before its bound, no chain of 2 passes exists and gs_phaseless
    returns nothing. *)
Lemma mismatched_magnitude_leaves_the_loop :
  (0 <= 2)%Z /\
  wf_matrix (array2 1 [[1]; [0]]) /\
  gs_step [1; 1; 1] [1; 1; 1] (array2 1 [[1]; [0]])
    (randunif (E:=counter_numpy) 1 (-1) 1 (Some 0%N) 0%N) = Raise ValueError /\
  gs_phaseless (E:=counter_numpy) [1; 1; 1] (array2 1 [[1]; [0]]) 2 (Some 0%N) 0%N =
    Raise ValueError /\
  (forall x', ~ gs_passes [1; 1; 1] [1; 1; 1] (array2 1 [[1]; [0]]) (Z.to_nat 2)
                  (randunif (E:=counter_numpy) 1 (-1) 1 (Some 0%N) 0%N) x').
Proof.
  assert (Hstep : gs_step [1; 1; 1] [1; 1; 1] (array2 1 [[1]; [0]])
            (randunif (E:=counter_numpy) 1 (-1) 1 (Some 0%N) 0%N) = Raise ValueError).
  { apply gs_step_raises; simpl; try reflexivity; lia. }
  split; [lia|]. split; [apply wf_array2; repeat constructor|].
  split; [exact Hstep|]. split.
  - unfold gs_phaseless, range. change (Z.to_nat 2) with 2%nat.
    apply gs_loop_raises; simpl; try reflexivity; lia.
  - intros x' Hp. change (Z.to_nat 2) with 2%nat in Hp.
    inversion Hp as [|k x x1 x'' H1 _]; subst.
    rewrite Hstep in H1. discriminate.
Qed.

(** C8 (amended).  For a frame F, any magnitude vector b and num_iter >= 0:
    when b has one entry per row of F or a single entry, or num_iter = 0,
    gs_phaseless returns; its result is reached from the random initial
    guess by exactly num_iter successive passes of the loop body, no other
    chain of num_iter passes exists, and for num_iter = 0 the result is the
    initial guess itself.  Otherwise (num_iter >= 1 and the length of b
    neither the row count of F nor 1) the first pass raises ValueError, no
    chain of num_iter passes exists and gs_phaseless raises ValueError.  The
    loop has no other exit: no early stop and no convergence check. *)
Theorem gs_phaseless_runs_num_iter_passes :
  forall {E : Numpy} (b : list R) (F : matrix) (num_iter : Z) (seed : option N) (os : N),
  wf_matrix F -> (0 <= num_iter)%Z ->
  Z.of_nat (Z.to_nat num_iter) = num_iter /\
  ((length b = shape0 F \/ length b = 1%nat \/ num_iter = 0%Z) ->
     exists x' : list R,
       gs_phaseless b F num_iter seed os = Ok x' /\
       gs_passes b b F (Z.to_nat num_iter) (randunif (shape1 F) (-1) 1 seed os) x' /\
       (forall x'', gs_passes b b F (Z.to_nat num_iter)
                      (randunif (shape1 F) (-1) 1 seed os) x'' -> x'' = x') /\
       (num_iter = 0%Z -> x' = randunif (shape1 F) (-1) 1 seed os)) /\
  ((length b <> shape0 F /\ length b <> 1%nat /\ (0 < num_iter)%Z) ->
     gs_step b b F (randunif (shape1 F) (-1) 1 seed os) = Raise ValueError /\
     gs_phaseless b F num_iter seed os = Raise ValueError /\
     (forall x'', ~ gs_passes b b F (Z.to_nat num_iter)
                      (randunif (shape1 F) (-1) 1 seed os) x'')).
Proof.
  intros E b F num_iter seed os [Hrows _] Hn.
  pose proof (randunif_length (shape1 F) (-1) 1 seed os) as Hx0. symmetry in Hx0.
  split; [apply Z2Nat.id; assumption|]. split.
  - intros Hb.
    assert (Hrun : exists x', for_each (fun _ x => gs_step b b F x)
                                (seq 0 (Z.to_nat num_iter))
                                (randunif (shape1 F) (-1) 1 seed os) = Ok x' /\
                              gs_passes b b F (Z.to_nat num_iter)
                                (randunif (shape1 F) (-1) 1 seed os) x').
    { destruct (Z.eq_dec num_iter 0) as [H0|H0].
      - subst num_iter. eexists. split; [reflexivity | constructor].
      - assert (Hb' : length b = shape0 F \/ length b = 1%nat)
          by (destruct Hb as [Hb|[Hb|Hb]]; [left | right | contradiction]; assumption).
        destruct (gs_loop_total b F (Z.to_nat num_iter) 0 _ Hrows Hx0 Hb')
          as [x' [Hrun [Hp _]]].
        exists x'. split; assumption. }
    destruct Hrun as [x' [Hrun Hp]].
    exists x'. split; [exact Hrun|]. split; [exact Hp|]. split.
    + intros x'' Hp'. exact (gs_passes_deterministic _ _ _ _ _ _ _ Hp' Hp).
    + intros H0. subst num_iter. simpl in Hp. inversion Hp. reflexivity.
  - intros [Hb [Hb1 Hpos]].
    pose proof (gs_step_raises b F _ Hrows Hx0 Hb Hb1) as Hstep.
    split; [exact Hstep|]. split.
    + unfold gs_phaseless, range.
      destruct (Z.to_nat num_iter) as [|k] eqn:Hk; [lia|].
      apply gs_loop_raises; assumption.
    + intros x'' Hp.
      destruct (Z.to_nat num_iter) as [|k] eqn:Hk; [lia|].
      inversion Hp as [|k' x x1 x3 H1 _]; subst.
      rewrite Hstep in H1. discriminate.
Qed.

Lemma gs_phaseless_runs_num_iter_passes_witness :
  Z.of_nat (Z.to_nat 2) = 2%Z /\
  ((length [1] = shape0 (array2 1 [[1]]) \/ length [1] = 1%nat \/ 2%Z = 0%Z) ->
     exists x' : list R,
       gs_phaseless (E:=counter_numpy) [1] (array2 1 [[1]]) 2 (Some 0%N) 0%N = Ok x' /\
       gs_passes [1] [1] (array2 1 [[1]]) (Z.to_nat 2)
         (randunif (E:=counter_numpy) (shape1 (array2 1 [[1]])) (-1) 1 (Some 0%N) 0%N) x' /\
       (forall x'', gs_passes [1] [1] (array2 1 [[1]]) (Z.to_nat 2)
                      (randunif (E:=counter_numpy) (shape1 (array2 1 [[1]])) (-1) 1
                         (Some 0%N) 0%N) x'' -> x'' = x') /\
       (2%Z = 0%Z ->
        x' = randunif (E:=counter_numpy) (shape1 (array2 1 [[1]])) (-1) 1 (Some 0%N) 0%N)) /\
  ((length [1] <> shape0 (array2 1 [[1]]) /\ length [1] <> 1%nat /\ (0 < 2)%Z) ->
     gs_step [1] [1] (array2 1 [[1]])
       (randunif (E:=counter_numpy) (shape1 (array2 1 [[1]])) (-1) 1 (Some 0%N) 0%N) =
       Raise ValueError /\
     gs_phaseless (E:=counter_numpy) [1] (array2 1 [[1]]) 2 (Some 0%N) 0%N =
       Raise ValueError /\
     (forall x'', ~ gs_passes [1] [1] (array2 1 [[1]]) (Z.to_nat 2)
                      (randunif (E:=counter_numpy) (shape1 (array2 1 [[1]])) (-1) 1
                         (Some 0%N) 0%N) x'')).
Proof.
  apply (gs_phaseless_runs_num_iter_passes (E:=counter_numpy) [1] (array2 1 [[1]]) 2
           (Some 0%N) 0%N).
  - apply wf_array2. repeat constructor.
  - lia.
Defined.

(** ** The frame generator: dimension and shape *)

Lemma rng_random_rows_wf : forall {E : Numpy} (r c : nat) (g : bitgen),
  length (fst (rng_random_rows r c g)) = r /\
  Forall (fun row => length row = c) (fst (rng_random_rows r c g)).
Proof.
  intros E r c; induction r as [|r IH]; intros g; simpl.
  - split; [reflexivity | constructor].
  - pose proof (rng_random_length c g) as Hrow.
    destruct (rng_random c g) as [row g1]. destruct (IH g1) as [Hl Hall].
    destruct (rng_random_rows r c g1) as [rest g2]. simpl in *.
    split; [rewrite Hl; reflexivity | constructor; assumption].
Qed.

Lemma rng_random2_square : forall {E : Numpy} (m : Z) (g : bitgen),
  (0 <= m)%Z ->
  exists A, rng_random2 m m g = Ok A /\ wf_matrix A /\
            shape0 A = Z.to_nat m /\ shape1 A = Z.to_nat m.
Proof.
  intros E m g Hm. unfold rng_random2.
  destruct (Z.ltb_spec m 0) as [Hneg|_]; [lia|]. simpl.
  eexists; split; [reflexivity|].
  destruct (rng_random_rows_wf (Z.to_nat m) (Z.to_nat m) g) as [Hl Hall].
  repeat split; assumption.
Qed.

Lemma rng_random2_negative : forall {E : Numpy} (m : Z) (g : bitgen),
  (m < 0)%Z -> rng_random2 m m g = Raise ValueError.
Proof.
  intros E m g Hm. unfold rng_random2.
  destruct (Z.ltb_spec m 0) as [_|Hpos]; [reflexivity | lia].
Qed.

Lemma slice_stop_nonneg : forall (stop : Z) (len : nat),
  (0 <= stop)%Z -> slice_stop stop len = Nat.min (Z.to_nat stop) len.
Proof.
  intros stop len Hs. unfold slice_stop.
  destruct (Z.ltb_spec stop 0) as [Hneg|_]; [lia|]. lia.
Qed.

Lemma slice_stop_le : forall (stop : Z) (len : nat), (slice_stop stop len <= len)%nat.
Proof.
  intros stop len. unfold slice_stop.
  destruct (Z.ltb_spec stop 0); lia.
Qed.

Lemma take_cols_wf : forall (stop : Z) (M : matrix),
  wf_matrix M -> wf_matrix (take_cols stop M).
Proof.
  intros stop M [Hrows Hall]. split; simpl.
  - rewrite length_map. assumption.
  - apply Forall_forall. intros r Hr. apply in_map_iff in Hr.
    destruct Hr as [r0 [<- Hin]]. rewrite length_firstn.
    rewrite Forall_forall in Hall. rewrite (Hall r0 Hin).
    pose proof (slice_stop_le stop (shape1 M)). lia.
Qed.

(** What [random_frame] returns once the frame dimension is not negative:
    the leading columns of the orthogonal factor. *)
Lemma random_frame_returns : forall {E : Numpy},
  qr_contract E ->
  forall (n : Z) (r : number) (fd : option Z) (seed : option N) (os : N) (m : Z),
  frame_dim n r fd = Ok m -> (0 <= m)%Z ->
  exists Qm, random_frame n r fd seed os = Ok (take_cols n Qm) /\
             wf_matrix Qm /\
             shape0 Qm = Z.to_nat m /\
             shape1 Qm = Z.to_nat m /\
             orthonormal_cols Qm.
Proof.
  intros E Hqr n r fd seed os m Hfd Hm. unfold random_frame. rewrite Hfd. cbn [bind].
  destruct (rng_random2_square m (default_rng seed os) Hm)
    as [A [HA [Hwf [H0 H1]]]].
  rewrite HA. cbn [bind].
  assert (Hsq : shape0 A = shape1 A) by congruence.
  destruct (Hqr A Hwf Hsq) as [HwfQ [Hs0 [Hs1 Horth]]].
  destruct (linalg_qr A) as [Qm Rm]. simpl in *.
  exists Qm. repeat split; try congruence; apply HwfQ.
Qed.

Lemma random_frame_negative : forall {E : Numpy}
  (n : Z) (r : number) (fd : option Z) (seed : option N) (os : N) (m : Z),
  frame_dim n r fd = Ok m -> (m < 0)%Z ->
  random_frame n r fd seed os = Raise ValueError.
Proof.
  intros E n r fd seed os m Hfd Hm. unfold random_frame. rewrite Hfd. cbn [bind].
  rewrite rng_random2_negative by assumption. reflexivity.
Qed.

Lemma random_frame_raises : forall {E : Numpy}
  (n : Z) (r : number) (fd : option Z) (seed : option N) (os : N) (e : exn),
  frame_dim n r fd = Raise e -> random_frame n r fd seed os = Raise e.
Proof.
  intros E n r fd seed os e Hfd. unfold random_frame. rewrite Hfd. reflexivity.
Qed.

(** The shape of what [random_frame] returns for a frame dimension m >= 0
    and an input dimension n >= 0. *)
Lemma random_frame_shape : forall {E : Numpy}, qr_contract E ->
  forall (n : Z) (r : number) (fd : option Z) (seed : option N) (os : N) (m : Z),
  (0 <= n)%Z -> frame_dim n r fd = Ok m -> (0 <= m)%Z ->
  exists F, random_frame n r fd seed os = Ok F /\ wf_matrix F /\
            shape0 F = Z.to_nat m /\
            shape1 F = Nat.min (Z.to_nat n) (Z.to_nat m).
Proof.
  intros E Hqr n r fd seed os m Hn Hfd Hm.
  destruct (random_frame_returns Hqr n r fd seed os m Hfd Hm)
    as [Qm [Hrun [Hwf [H0 [H1 _]]]]].
  exists (take_cols n Qm). split; [exact Hrun|]. split; [apply take_cols_wf; exact Hwf|].
  cbn [shape0 shape1 take_cols]. rewrite slice_stop_nonneg, H1 by assumption.
  split; [exact H0 | reflexivity].
Qed.


(** The float product of the frame dimension, case by case. *)
Lemma frame_dim_float : forall (n : Z) (f x : spec_float),
  float_of_int n = Ok x ->
  match SFmul 53 1024 x f with
  | S754_nan => frame_dim n (PyFloat f) None = Raise ValueError
  | S754_infinity _ => frame_dim n (PyFloat f) None = Raise OverflowError
  | p => frame_dim n (PyFloat f) None = Ok (int_of_Q (SF2Q p))
  end.
Proof.
  intros n f x Hx. unfold frame_dim, py_mul. rewrite Hx. cbn [bind]. unfold py_int.
  destruct (SFmul 53 1024 x f); reflexivity.
Qed.

Lemma int_of_Q_trunc : forall q : Q,
  ((0 <= q)%Q -> int_of_Q q = Qfloor q) /\
  ((q <= 0)%Q -> int_of_Q q = Qceiling q).
Proof.
  intros [a d]; unfold int_of_Q, Qceiling, Qfloor, Qle; simpl. split; intros Hq.
  - apply Z.quot_div_nonneg; lia.
  - rewrite Z.mul_1_r in Hq.
    replace a with (- (- a))%Z at 1 by lia.
    rewrite Z.quot_opp_l by lia. f_equal.
    apply Z.quot_div_nonneg; lia.
Qed.

(** The model on three float redundancies: 3 * (4/3) rounds up to 4.0 and
    gives 4 rows; 3 * (-1/3) rounds to -1.0 and the negative dimension makes
    the generator raise; 10 * 2^1023 is infinite and [int] raises. *)
Lemma float_redundancy_examples :
  let four_thirds := SFdiv 53 1024 (float64 4 0) (float64 3 0) in
  let minus_third := SFdiv 53 1024 (float64 (-1) 0) (float64 3 0) in
  frame_dim 3 (PyFloat four_thirds) None = Ok 4%Z /\
  frame_dim 3 (PyFloat minus_third) None = Ok (-1)%Z /\
  random_frame (E:=counter_numpy) 3 (PyFloat minus_third) None (Some 0%N) 0%N =
    Raise ValueError /\
  frame_dim 10 (PyFloat (float64 1 1023)) None = Raise OverflowError /\
  random_frame (E:=counter_numpy) 10 (PyFloat (float64 1 1023)) None (Some 0%N) 0%N =
    Raise OverflowError /\
  frame_dim 3 (PyFloat S754_nan) None = Raise ValueError /\
  frame_dim (2 ^ 1024) (PyFloat (float64 1 0)) None = Raise OverflowError /\
  frame_dim 3 (PyInt 2) None = Ok 6%Z.
Proof. cbv zeta. repeat split; vm_compute; reflexivity. Qed.

(** C3, counterexample.  For n = 3 and r = 1.25 the float product is 3.75:
    the code takes m = int(3.75) = 3, while rounding gives 4.  The main
    routine's own n = 21 and r = 15.5 give the product 325.5: the code takes
    m = 325, as the main routine's [m = int(r*n)] does, while rounding gives
    326. *)
Lemma frame_dim_truncates :
  frame_dim 3 (PyFloat (float64 5 (-2))) None = Ok 3%Z /\
  py_mul (PyInt 3) (PyFloat (float64 5 (-2))) = Ok (PyFloat (float64 15 (-2))) /\
  round_half_even (SF2Q (float64 15 (-2))) = 4%Z /\
  frame_dim main_n main_r None = Ok 325%Z /\
  main_m = Ok 325%Z /\
  py_mul (PyInt main_n) main_r = Ok (PyFloat (float64 651 (-1))) /\
  round_half_even (SF2Q (float64 651 (-1))) = 326%Z.
Proof. repeat split; vm_compute; reflexivity. Qed.

(** ** Rows and columns of the identity *)

Lemma dot_cons : forall (a b : R) (r x : list R),
  dot (a :: r) (b :: x) = a * b + dot r x.
Proof. reflexivity. Qed.

Lemma dot_nil_l : forall x : list R, dot [] x = 0.
Proof. reflexivity. Qed.

Lemma dot_nil_r : forall r : list R, dot r ([] : list R) = 0.
Proof. intros [|a r]; reflexivity. Qed.

Lemma nth_map_seq : forall (f : nat -> R) (n j : nat), (j < n)%nat ->
  nth j (map f (seq 0 n)) 0 = f j.
Proof.
  intros f n j Hj.
  rewrite (nth_indep _ 0 (f 0%nat)) by (rewrite length_map, length_seq; assumption).
  rewrite map_nth, seq_nth by assumption. reflexivity.
Qed.

Lemma map_nth_seq : forall v : list R,
  map (fun i => nth i v 0) (seq 0 (length v)) = v.
Proof.
  induction v as [|a v IH]; simpl.
  - reflexivity.
  - f_equal. rewrite <- seq_shift, map_map. exact IH.
Qed.

Lemma dot_unit_row : forall (n s i : nat) (v : list R),
  length v = n ->
  dot (map (fun k => if Nat.eqb i k then 1 else 0) (seq s n)) v =
  if Nat.leb s i && Nat.ltb i (s + n) then nth (i - s) v 0 else 0.
Proof.
  induction n as [|n IH]; intros s i v Hv.
  - destruct v; [|discriminate]. simpl.
    destruct (Nat.leb_spec s i); destruct (Nat.ltb_spec i (s + 0)); simpl;
      try reflexivity; lia.
  - destruct v as [|a v]; [discriminate|]. injection Hv as Hv.
    cbn [seq map]. rewrite dot_cons, (IH (S s) i v Hv).
    destruct (Nat.eqb_spec i s) as [->|Hne].
    + rewrite Nat.sub_diag. cbn [nth].
      destruct (Nat.leb_spec (S s) s); [lia|]. cbn [andb].
      destruct (Nat.leb_spec s s); [|lia].
      destruct (Nat.ltb_spec s (s + S n)); [|lia]. cbn [andb]. ring.
    + destruct (Nat.leb_spec (S s) i); destruct (Nat.leb_spec s i);
        destruct (Nat.ltb_spec i (S s + n)); destruct (Nat.ltb_spec i (s + S n));
        cbn [andb]; try lia; try ring.
      replace (i - s)%nat with (S (i - S s)) by lia. cbn [nth]. ring.
Qed.

Lemma col_identity : forall n j : nat, (j < n)%nat ->
  col j (identity n) = map (fun i => if Nat.eqb i j then 1 else 0) (seq 0 n).
Proof.
  intros n j Hj. unfold col. simpl. rewrite map_map.
  apply map_ext. intros i. apply nth_map_seq. assumption.
Qed.

Lemma wf_identity : forall n : nat, wf_matrix (identity n).
Proof.
  intros n; split; simpl.
  - rewrite length_map, length_seq. reflexivity.
  - apply Forall_forall. intros r Hr. apply in_map_iff in Hr.
    destruct Hr as [i [<- _]]. rewrite length_map, length_seq. reflexivity.
Qed.

(** The Gram matrix [F.T @ F] entry by entry. *)
Lemma gram_rows : forall F : matrix,
  matmul (transpose F) F =
  Ok (mkMat (shape1 F) (shape1 F)
        (map (fun i => map (fun j => dot (col i F) (col j F)) (seq 0 (shape1 F)))
           (seq 0 (shape1 F)))).
Proof.
  intros F. unfold matmul. simpl. rewrite Nat.eqb_refl, map_map. reflexivity.
Qed.

Lemma identity_orthonormal : forall n : nat, orthonormal_cols (identity n).
Proof.
  intros n. unfold orthonormal_cols. rewrite gram_rows.
  change (shape1 (identity n)) with n. unfold identity at 3. f_equal. f_equal.
  apply map_ext_in. intros i Hi. apply in_seq in Hi.
  apply map_ext_in. intros j Hj. apply in_seq in Hj.
  rewrite (col_identity n i) by lia.
  rewrite (map_ext _ (fun k => if Nat.eqb i k then 1 else 0))
    by (intros k; rewrite Nat.eqb_sym; reflexivity).
  rewrite (dot_unit_row n 0 i).
  - destruct (Nat.leb_spec 0 i); [|lia]. destruct (Nat.ltb_spec i (0 + n)); [|lia].
    cbn [andb]. rewrite Nat.sub_0_r, col_identity by lia.
    rewrite nth_map_seq by lia. reflexivity.
  - unfold col. rewrite length_map. apply wf_identity.
Qed.

Lemma counter_numpy_qr_contract : qr_contract counter_numpy.
Proof.
  intros A HA Hsq. simpl. repeat split.
  - simpl. rewrite length_map, length_seq. reflexivity.
  - apply wf_identity.
  - simpl. assumption.
  - apply identity_orthonormal.
Qed.

(** ** The leading columns of a matrix with orthonormal columns *)

Lemma nth_map_seq_gen : forall {A : Type} (f : nat -> A) (d : A) (n j : nat),
  (j < n)%nat -> nth j (map f (seq 0 n)) d = f j.
Proof.
  intros A f d n j Hj.
  rewrite (nth_indep _ d (f 0%nat)) by (rewrite length_map, length_seq; assumption).
  rewrite map_nth, seq_nth by assumption. reflexivity.
Qed.

Lemma orthonormal_cols_entries : forall F : matrix,
  orthonormal_cols F ->
  forall i j : nat, (i < shape1 F)%nat -> (j < shape1 F)%nat ->
  dot (col i F) (col j F) = if Nat.eqb i j then 1 else 0.
Proof.
  intros F Horth i j Hi Hj. unfold orthonormal_cols in Horth.
  rewrite gram_rows in Horth. unfold identity in Horth. injection Horth as Hrows.
  apply (f_equal (fun rs => nth j (nth i rs []) 0)) in Hrows. cbv beta in Hrows.
  rewrite !nth_map_seq_gen in Hrows by assumption. exact Hrows.
Qed.

Lemma entries_orthonormal_cols : forall F : matrix,
  (forall i j : nat, (i < shape1 F)%nat -> (j < shape1 F)%nat ->
     dot (col i F) (col j F) = if Nat.eqb i j then 1 else 0) ->
  orthonormal_cols F.
Proof.
  intros F Hent. unfold orthonormal_cols. rewrite gram_rows. unfold identity.
  f_equal. f_equal.
  apply map_ext_in. intros i Hi. apply in_seq in Hi.
  apply map_ext_in. intros j Hj. apply in_seq in Hj.
  apply Hent; lia.
Qed.

Lemma col_take_cols : forall (stop : Z) (M : matrix) (j : nat),
  (j < slice_stop stop (shape1 M))%nat -> col j (take_cols stop M) = col j M.
Proof.
  intros stop M j Hj. unfold col. simpl. rewrite map_map.
  apply map_ext. intros r. rewrite nth_firstn.
  destruct (Nat.ltb_spec j (slice_stop stop (shape1 M))); [reflexivity | lia].
Qed.

Lemma take_cols_orthonormal : forall (stop : Z) (M : matrix),
  orthonormal_cols M -> orthonormal_cols (take_cols stop M).
Proof.
  intros stop M Horth. apply entries_orthonormal_cols.
  intros i j Hi Hj. simpl in Hi, Hj.
  rewrite !col_take_cols by assumption.
  pose proof (slice_stop_le stop (shape1 M)).
  apply orthonormal_cols_entries; [assumption | lia | lia].
Qed.

(** C3 (amended).  Without an explicit frame dimension, random_frame uses
    m = int(n*r): the exact product for an integer redundancy, and for a
    float redundancy the binary64 product truncated toward zero (its floor
    when the product is not negative, its ceiling otherwise), never rounded
    to the nearest integer; an infinite product raises OverflowError and a
    NaN product ValueError.  For n >= 0 and m >= 0 the function returns a
    well-formed matrix with m rows and min(n, m) columns, that is m x n
    whenever n <= m; for m < 0 it raises ValueError. *)
Theorem random_frame_dimension :
  forall {E : Numpy}, qr_contract E ->
  forall (n : Z) (r : number) (seed : option N) (os : N),
  (0 <= n)%Z ->
  (forall k : Z, r = PyInt k -> frame_dim n r None = Ok (n * k)%Z) /\
  (forall f x : spec_float, r = PyFloat f -> float_of_int n = Ok x ->
     match SFmul 53 1024 x f with
     | S754_nan => frame_dim n r None = Raise ValueError
     | S754_infinity _ => frame_dim n r None = Raise OverflowError
     | p => frame_dim n r None = Ok (int_of_Q (SF2Q p)) /\
            ((0 <= SF2Q p)%Q -> int_of_Q (SF2Q p) = Qfloor (SF2Q p)) /\
            ((SF2Q p <= 0)%Q -> int_of_Q (SF2Q p) = Qceiling (SF2Q p))
     end) /\
  (forall f : spec_float, r = PyFloat f -> float_of_int n = Raise OverflowError ->
     frame_dim n r None = Raise OverflowError) /\
  (forall m : Z, frame_dim n r None = Ok m ->
     ((0 <= m)%Z ->
        exists F, random_frame n r None seed os = Ok F /\ wf_matrix F /\
                  shape0 F = Z.to_nat m /\
                  shape1 F = Nat.min (Z.to_nat n) (Z.to_nat m) /\
                  ((n <= m)%Z -> shape1 F = Z.to_nat n)) /\
     ((m < 0)%Z -> random_frame n r None seed os = Raise ValueError)) /\
  (forall e : exn, frame_dim n r None = Raise e ->
     random_frame n r None seed os = Raise e).
Proof.
  intros E Hqr n r seed os Hn.
  split; [intros k ->; reflexivity|].
  split.
  { intros f x -> Hx. pose proof (frame_dim_float n f x Hx) as Hp.
    destruct (SFmul 53 1024 x f) as [s|s| |s m0 e0]; try exact Hp;
      (split; [exact Hp | split; apply int_of_Q_trunc]). }
  split.
  { intros f -> Hx. unfold frame_dim, py_mul. rewrite Hx. reflexivity. }
  split.
  - intros m Hfd. split.
    + intros Hm.
      destruct (random_frame_shape Hqr n r None seed os m Hn Hfd Hm)
        as [F [Hrun [Hwf [H0 H1]]]].
      exists F. repeat split; try assumption; try apply Hwf. intros Hle. lia.
    + intros Hm. exact (random_frame_negative n r None seed os m Hfd Hm).
  - intros e He. exact (random_frame_raises n r None seed os e He).
Qed.

Lemma random_frame_dimension_witness :
  (forall k : Z, PyFloat (float64 5 (-2)) = PyInt k ->
     frame_dim 3 (PyFloat (float64 5 (-2))) None = Ok (3 * k)%Z) /\
  (forall f x : spec_float, PyFloat (float64 5 (-2)) = PyFloat f ->
     float_of_int 3 = Ok x ->
     match SFmul 53 1024 x f with
     | S754_nan => frame_dim 3 (PyFloat (float64 5 (-2))) None = Raise ValueError
     | S754_infinity _ =>
         frame_dim 3 (PyFloat (float64 5 (-2))) None = Raise OverflowError
     | p => frame_dim 3 (PyFloat (float64 5 (-2))) None = Ok (int_of_Q (SF2Q p)) /\
            ((0 <= SF2Q p)%Q -> int_of_Q (SF2Q p) = Qfloor (SF2Q p)) /\
            ((SF2Q p <= 0)%Q -> int_of_Q (SF2Q p) = Qceiling (SF2Q p))
     end) /\
  (forall f : spec_float, PyFloat (float64 5 (-2)) = PyFloat f ->
     float_of_int 3 = Raise OverflowError ->
     frame_dim 3 (PyFloat (float64 5 (-2))) None = Raise OverflowError) /\
  (forall m : Z, frame_dim 3 (PyFloat (float64 5 (-2))) None = Ok m ->
     ((0 <= m)%Z ->
        exists F, random_frame (E:=counter_numpy) 3 (PyFloat (float64 5 (-2))) None
                    (Some 7%N) 0%N = Ok F /\ wf_matrix F /\
                  shape0 F = Z.to_nat m /\
                  shape1 F = Nat.min (Z.to_nat 3) (Z.to_nat m) /\
                  ((3 <= m)%Z -> shape1 F = Z.to_nat 3)) /\
     ((m < 0)%Z -> random_frame (E:=counter_numpy) 3 (PyFloat (float64 5 (-2))) None
                     (Some 7%N) 0%N = Raise ValueError)) /\
  (forall e : exn, frame_dim 3 (PyFloat (float64 5 (-2))) None = Raise e ->
     random_frame (E:=counter_numpy) 3 (PyFloat (float64 5 (-2))) None
       (Some 7%N) 0%N = Raise e).
Proof.
  apply (random_frame_dimension (E:=counter_numpy) counter_numpy_qr_contract
           3 (PyFloat (float64 5 (-2))) (Some 7%N) 0%N).
  lia.
Defined.

(** The frame that [random_frame] returns when 1 <= n <= m = int(n*r). *)
Lemma random_frame_tall : forall {E : Numpy}, qr_contract E ->
  forall (n : Z) (r : number) (seed : option N) (os : N) (m : Z),
  (1 <= n)%Z -> frame_dim n r None = Ok m -> (n <= m)%Z ->
  exists F, random_frame n r None seed os = Ok F /\
            wf_matrix F /\
            shape0 F = Z.to_nat m /\
            shape1 F = Z.to_nat n /\
            orthonormal_cols F.
Proof.
  intros E Hqr n r seed os m Hn Hfd Hm.
  assert (Hm0 : (0 <= m)%Z) by lia.
  destruct (random_frame_returns Hqr n r None seed os m Hfd Hm0)
    as [Qm [Hrun [Hwf [H0 [H1 Horth]]]]].
  assert (Hk : shape1 (take_cols n Qm) = Z.to_nat n).
  { simpl. rewrite slice_stop_nonneg, H1 by lia. lia. }
  exists (take_cols n Qm). split; [exact Hrun|]. split; [apply take_cols_wf; exact Hwf|].
  split; [exact H0|]. split; [exact Hk|].
  apply take_cols_orthonormal. exact Horth.
Qed.

(** C4. For n >= 1 and m = int(n*r) >= n, random_frame returns an m x n matrix
    F whose columns are orthonormal: F.T @ F is the n x n identity (in exact
    real arithmetic, for a QR factorization that meets its contract); m is
    the frame dimension the code computes, from the int or float product. *)
Theorem random_frame_orthonormal :
  forall {E : Numpy}, qr_contract E ->
  forall (n : Z) (r : number) (seed : option N) (os : N) (m : Z),
  (1 <= n)%Z -> frame_dim n r None = Ok m -> (n <= m)%Z ->
  exists F, random_frame n r None seed os = Ok F /\
            wf_matrix F /\
            shape0 F = Z.to_nat m /\
            shape1 F = Z.to_nat n /\
            matmul (transpose F) F = Ok (identity (Z.to_nat n)).
Proof.
  intros E Hqr n r seed os m Hn Hfd Hm.
  destruct (random_frame_tall Hqr n r seed os m Hn Hfd Hm)
    as [F [HF [Hwf [H0 [H1 Horth]]]]].
  exists F. repeat split; try assumption; try apply Hwf.
  rewrite <- H1. exact Horth.
Qed.

Lemma random_frame_orthonormal_witness :
  exists F, random_frame (E:=counter_numpy) 3
              (PyFloat (SFdiv 53 1024 (float64 4 0) (float64 3 0))) None
              (Some 7%N) 0%N = Ok F /\
            wf_matrix F /\
            shape0 F = Z.to_nat 4 /\
            shape1 F = Z.to_nat 3 /\
            matmul (transpose F) F = Ok (identity (Z.to_nat 3)).
Proof.
  apply (random_frame_orthonormal (E:=counter_numpy) counter_numpy_qr_contract
           3 (PyFloat (SFdiv 53 1024 (float64 4 0) (float64 3 0))) (Some 7%N) 0%N 4).
  - lia.
  - vm_compute. reflexivity.
  - lia.
Defined.

(** ** A pass in real arithmetic

    The phase factors of a real vector are signs, so the complex
    intermediates of a pass have zero imaginary part and a pass is
    x -> -F^T (b * sgn(F x)). *)

Lemma zip_with_map_out : forall {A B D D' : Type} (f : A -> B -> D) (g : D -> D') u v,
  zip_with (fun a b => g (f a b)) u v = map g (zip_with f u v).
Proof.
  intros A B D D' f g u; induction u as [|a u IH]; intros [|b v]; simpl; try reflexivity.
  f_equal. apply IH.
Qed.

Lemma broadcast2_map_out : forall {A B D D' : Type} (f : A -> B -> D) (g : D -> D') u v,
  broadcast2 (fun a b => g (f a b)) u v = rmap (map g) (broadcast2 f u v).
Proof.
  intros A B D D' f g u v; unfold broadcast2.
  destruct (Nat.eqb (length u) (length v)); simpl.
  - rewrite zip_with_map_out. reflexivity.
  - destruct u as [|a [|a' u]]; destruct v as [|b [|b' v]]; simpl; try reflexivity;
      rewrite ?map_map; reflexivity.
Qed.

Lemma dot_RtoC : forall (r y : list R), dot r (map RtoC y) = RtoC (dot r y).
Proof.
  induction r as [|a r IH]; intros [|b y]; try reflexivity.
  change (dot (a :: r) (map RtoC (b :: y)))
    with (Cadd (Cscale a (RtoC b)) (dot r (map RtoC y))).
  rewrite IH, dot_cons. apply C_eq; simpl; ring.
Qed.

Lemma matvec_RtoC : forall (M : matrix) (y : list R),
  matvec M (map RtoC y) = rmap (map RtoC) (matvec M y).
Proof.
  intros M y; unfold matvec. rewrite length_map.
  destruct (Nat.eqb (shape1 M) (length y)); simpl; [|reflexivity].
  f_equal. rewrite map_map. apply map_ext. intros r. apply dot_RtoC.
Qed.

Lemma gs_step_real : forall (b : list R) (F : matrix) (x : list R),
  gs_step b b F x =
  (X <- matvec F x ;;
   Yr <- broadcast2 Rmult b (map sgn X) ;;
   w <- matvec (transpose F) Yr ;;
   Ok (vneg w)).
Proof.
  intros b F x. rewrite gs_step_simplified. unfold simplified_step.
  destruct (matvec F x) as [X|e]; cbn [bind]; [|reflexivity].
  rewrite (map_ext _ (fun Xk => RtoC (sgn Xk))) by (intros; apply phase_of_real).
  rewrite broadcast2_map_r.
  rewrite (broadcast2_ext _ (fun a t => RtoC (a * sgn t)))
    by (intros; apply Cmul_RtoC).
  rewrite (broadcast2_map_out (fun a t => a * sgn t) RtoC).
  rewrite <- (broadcast2_map_r Rmult sgn).
  destruct (broadcast2 Rmult b (map sgn X)) as [Yr|e]; cbn [bind rmap]; [|reflexivity].
  rewrite matvec_RtoC.
  destruct (matvec (transpose F) Yr) as [w|e]; cbn [bind rmap]; [|reflexivity].
  f_equal. unfold vneg. rewrite map_map. reflexivity.
Qed.

(** ** No validation of the inputs *)

Lemma counter_randunif_1 :
  randunif (E:=counter_numpy) 1 (-1) 1 (Some 0%N) 0%N = [(1 - -1) * (1 / 4) + -1].
Proof. reflexivity. Qed.

Lemma counter_randunif_2 :
  randunif (E:=counter_numpy) 2 (-1) 1 (Some 0%N) 0%N =
  [(1 - -1) * (1 / 4) + -1; (1 - -1) * (3 / 4) + -1].
Proof. reflexivity. Qed.

(** One pass with the 1 x 2 frame [[1, 0]] (fewer rows than columns). *)
Lemma wide_frame_pass :
  gs_phaseless (E:=counter_numpy) [1] (array2 2 [[1; 0]]) 1 (Some 0%N) 0%N = Ok [1; 0].
Proof.
  unfold gs_phaseless, range. simpl Z.to_nat. simpl seq. cbn [for_each].
  change (shape1 (array2 2 [[1; 0]])) with 2%nat.
  rewrite gs_step_real, counter_randunif_2.
  unfold matvec, dot, col. simpl.
  rewrite sgn_neg by lra.
  f_equal. f_equal; [lra | f_equal; lra].
Qed.





(** ** Inner products, adjoint and isometry *)

Lemma dot_comm : forall u v : list R, dot u v = dot v u.
Proof.
  induction u as [|a u IH]; intros [|b v]; try reflexivity.
  rewrite !dot_cons, IH. ring.
Qed.

Lemma dot_map_linear : forall (f g : nat -> R) (a : R) (l : list nat) (v : list R),
  dot (map (fun j => a * f j + g j) l) v = a * dot (map f l) v + dot (map g l) v.
Proof.
  intros f g a l; induction l as [|j l IH]; intros [|b v]; cbn [map].
  - rewrite !dot_nil_l. ring.
  - rewrite !dot_nil_l. ring.
  - rewrite !dot_nil_r. ring.
  - rewrite !dot_cons, IH. ring.
Qed.

Lemma dot_map_zero : forall (l : list nat) (v : list R),
  dot (map (fun _ => 0) l) v = 0.
Proof.
  induction l as [|j l IH]; intros [|b v]; cbn [map]; try reflexivity.
  rewrite dot_cons, IH. ring.
Qed.

(** Summing over columns first or over rows first gives the same number:
    (r^T B) v = r^T (B v). *)
Lemma dot_cols_rows : forall (B : list (list R)) (c : nat) (ra v : list R),
  Forall (fun rb => length rb = c) B ->
  dot (map (fun j => dot ra (map (fun rb => nth j rb 0) B)) (seq 0 c)) v =
  dot ra (map (fun rb => dot rb v) B).
Proof.
  induction B as [|rb B IH]; intros c ra v HB.
  - cbn [map]. rewrite !dot_nil_r. apply dot_map_zero.
  - destruct ra as [|a ra].
    + rewrite dot_nil_l. apply dot_map_zero.
    + cbn [map]. rewrite dot_cons.
      rewrite (map_ext _ (fun j => a * nth j rb 0 + dot ra (map (fun rb0 => nth j rb0 0) B)))
        by (intros; apply dot_cons).
      rewrite dot_map_linear.
      inversion HB as [|? ? Hrb HB']; subst.
      rewrite map_nth_seq, (IH _ ra v HB'). reflexivity.
Qed.

Lemma matvec_rows : forall (F : matrix) (x : list R),
  shape1 F = length x -> matvec F x = Ok (map (fun r => dot r x) (rows F)).
Proof. intros F x Hx; unfold matvec. rewrite Hx, Nat.eqb_refl. reflexivity. Qed.

Lemma matvec_transpose_rows : forall (F : matrix) (y : list R),
  shape0 F = length y ->
  matvec (transpose F) y = Ok (map (fun j => dot (col j F) y) (seq 0 (shape1 F))).
Proof.
  intros F y Hy; unfold matvec. simpl. rewrite Hy, Nat.eqb_refl, map_map. reflexivity.
Qed.

(** <F x, y> = <x, F^T y> *)
Lemma adjoint : forall (F : matrix) (x y : list R),
  wf_matrix F ->
  dot (map (fun r => dot r x) (rows F)) y =
  dot x (map (fun j => dot (col j F) y) (seq 0 (shape1 F))).
Proof.
  intros F x y [_ Hall].
  rewrite (dot_comm x), (dot_comm _ y).
  rewrite (map_ext _ (fun j => dot y (col j F))) by (intros; apply dot_comm).
  symmetry. apply dot_cols_rows. exact Hall.
Qed.

(** F^T (F v) = v when the columns of F are orthonormal. *)
Lemma synthesis_after_analysis : forall (F : matrix) (v : list R),
  wf_matrix F -> orthonormal_cols F -> length v = shape1 F ->
  map (fun j => dot (col j F) (map (fun r => dot r v) (rows F))) (seq 0 (shape1 F)) = v.
Proof.
  intros F v [Hrows Hall] Horth Hv.
  transitivity (map (fun i => nth i v 0) (seq 0 (shape1 F)));
    [|rewrite <- Hv; apply map_nth_seq].
  apply map_ext_in. intros i Hi. apply in_seq in Hi.
  rewrite <- (dot_cols_rows (rows F) (shape1 F) (col i F) v Hall).
  rewrite (map_ext_in _ (fun j => if Nat.eqb i j then 1 else 0)).
  - rewrite (dot_unit_row (shape1 F) 0 i v Hv).
    destruct (Nat.leb_spec 0 i); [|lia].
    destruct (Nat.ltb_spec i (0 + shape1 F)); [|lia].
    cbn [andb]. rewrite Nat.sub_0_r. reflexivity.
  - intros j Hj. apply in_seq in Hj.
    apply (orthonormal_cols_entries F Horth); lia.
Qed.

(** ** The residual cannot grow in a pass *)

Lemma norm_dot : forall v : list R, norm v = sqrt (dot v v).
Proof.
  intros v; unfold norm. f_equal.
  induction v as [|a v IH]; [reflexivity|].
  rewrite dot_cons, <- IH. reflexivity.
Qed.

Lemma dot_self_nonneg : forall v : list R, 0 <= dot v v.
Proof.
  induction v as [|a v IH].
  - rewrite dot_nil_l. lra.
  - rewrite dot_cons. nra.
Qed.

Lemma dot_sub_self : forall u v : list R,
  length u = length v ->
  dot (zip_with Rminus u v) (zip_with Rminus u v) = dot u u - 2 * dot u v + dot v v.
Proof.
  induction u as [|a u IH]; intros [|b v] Hl; try discriminate.
  - rewrite !dot_nil_l. ring.
  - injection Hl as Hl. cbn [zip_with]. rewrite !dot_cons, (IH v Hl). ring.
Qed.

(** Among the vectors F x, the one closest to y is F (F^T y). *)
Lemma projection_is_closest : forall (F : matrix) (x y : list R),
  wf_matrix F -> orthonormal_cols F ->
  length x = shape1 F -> length y = shape0 F ->
  let w := map (fun j => dot (col j F) y) (seq 0 (shape1 F)) in
  let Fw := map (fun r => dot r w) (rows F) in
  let Fx := map (fun r => dot r x) (rows F) in
  dot (zip_with Rminus Fw y) (zip_with Rminus Fw y) <=
  dot (zip_with Rminus Fx y) (zip_with Rminus Fx y).
Proof.
  intros F x y HF Horth Hx Hy w Fw Fx.
  assert (Hw : length w = shape1 F)
    by (unfold w; rewrite length_map, length_seq; reflexivity).
  assert (HlFw : length Fw = length y)
    by (unfold Fw; rewrite length_map, Hy; apply HF).
  assert (HlFx : length Fx = length y)
    by (unfold Fx; rewrite length_map, Hy; apply HF).
  rewrite (dot_sub_self Fw y HlFw), (dot_sub_self Fx y HlFx).
  assert (Hiso : forall v, length v = shape1 F ->
            dot (map (fun r => dot r v) (rows F)) (map (fun r => dot r v) (rows F)) =
            dot v v).
  { intros v Hv. rewrite (adjoint F v _ HF).
    rewrite (synthesis_after_analysis F v HF Horth Hv). reflexivity. }
  unfold Fw, Fx. rewrite (Hiso w Hw), (Hiso x Hx), !(adjoint F _ y HF).
  fold w.
  assert (Hxw : length x = length w) by congruence.
  pose proof (dot_self_nonneg (zip_with Rminus x w)) as Hpos.
  rewrite (dot_sub_self x w Hxw) in Hpos. lra.
Qed.

Lemma residual_as_distance : forall X b : list R,
  length X = length b ->
  dot (zip_with Rminus (map Rabs X) b) (zip_with Rminus (map Rabs X) b) =
  dot (zip_with Rminus X (zip_with Rmult b (map sgn X)))
      (zip_with Rminus X (zip_with Rmult b (map sgn X))).
Proof.
  induction X as [|a X IH]; intros [|c b] Hl; try discriminate; [reflexivity|].
  injection Hl as Hl. cbn [map zip_with]. rewrite !dot_cons, (IH b Hl). f_equal.
  unfold sgn, Rabs. destruct (Rcase_abs a); destruct (Rlt_dec a 0); try lra; ring.
Qed.

Lemma residual_below_distance : forall U b S : list R,
  length U = length b -> length S = length b ->
  Forall (fun c => 0 <= c) b ->
  Forall (fun s => s = 1 \/ s = -1) S ->
  dot (zip_with Rminus (map Rabs U) b) (zip_with Rminus (map Rabs U) b) <=
  dot (zip_with Rminus U (zip_with Rmult b S)) (zip_with Rminus U (zip_with Rmult b S)).
Proof.
  induction U as [|a U IH]; intros [|c b] [|s S] HU HS Hb HSs; try discriminate.
  - cbn [map zip_with]. lra.
  - injection HU as HU. injection HS as HS.
    inversion Hb as [|? ? Hc Hb']; subst. inversion HSs as [|? ? Hs HS']; subst.
    cbn [map zip_with]. rewrite !dot_cons.
    specialize (IH b S HU HS Hb' HS').
    assert (Hone : (Rabs a - c) * (Rabs a - c) <= (a - c * s) * (a - c * s)).
    { unfold Rabs. destruct (Rcase_abs a); destruct Hs as [-> | ->]; nra. }
    lra.
Qed.

Lemma sgn_is_sign : forall X : list R, Forall (fun s => s = 1 \/ s = -1) (map sgn X).
Proof.
  intros X. apply Forall_forall. intros s Hs. apply in_map_iff in Hs.
  destruct Hs as [a [<- _]]. unfold sgn. destruct (Rlt_dec a 0); [right | left]; reflexivity.
Qed.

Lemma broadcast2_same_length : forall {A B D : Type} (f : A -> B -> D) u v,
  length u = length v -> broadcast2 f u v = Ok (zip_with f u v).
Proof. intros A B D f u v Hl; unfold broadcast2. rewrite Hl, Nat.eqb_refl. reflexivity. Qed.

Lemma err_real : forall (F : matrix) (b x : list R),
  wf_matrix F -> length x = shape1 F -> length b = shape0 F ->
  err F b x =
  Ok (norm (zip_with Rminus (map Rabs (map (fun r => dot r x) (rows F))) b)).
Proof.
  intros F b x [Hrows _] Hx Hb. unfold err.
  rewrite matvec_rows by congruence. cbn [bind].
  rewrite broadcast2_same_length by (rewrite !length_map; congruence).
  reflexivity.
Qed.

(** One pass from a real iterate x, under the hypotheses of C9: the next
    iterate is defined and its residual is at most the residual of x. *)
Lemma gs_step_residual : forall (F : matrix) (b x : list R),
  wf_matrix F -> orthonormal_cols F ->
  length x = shape1 F -> length b = shape0 F ->
  Forall (fun c => 0 <= c) b ->
  exists x' r r',
    gs_step b b F x = Ok x' /\ length x' = shape1 F /\
    err F b x = Ok r /\ err F b x' = Ok r' /\ r' <= r.
Proof.
  intros F b x HF Horth Hx Hb Hpos.
  pose proof HF as [Hrows Hall].
  set (X := map (fun r => dot r x) (rows F)).
  set (Yr := zip_with Rmult b (map sgn X)).
  set (w := map (fun j => dot (col j F) Yr) (seq 0 (shape1 F))).
  assert (HlX : length X = length b) by (unfold X; rewrite length_map; congruence).
  assert (HlY : length Yr = shape0 F).
  { unfold Yr. rewrite zip_with_length by (rewrite length_map; congruence). exact Hb. }
  assert (Hlw : length w = shape1 F)
    by (unfold w; rewrite length_map, length_seq; reflexivity).
  assert (Hstep : gs_step b b F x = Ok (vneg w)).
  { rewrite gs_step_real, matvec_rows by congruence. cbn [bind]. fold X.
    rewrite broadcast2_same_length by (rewrite length_map; congruence).
    cbn [bind]. fold Yr. rewrite matvec_transpose_rows by congruence. reflexivity. }
  assert (Hlx' : length (vneg w) = shape1 F) by (unfold vneg; rewrite length_map; exact Hlw).
  exists (vneg w). eexists. eexists.
  split; [exact Hstep|]. split; [exact Hlx'|].
  split; [apply (err_real F b x HF Hx Hb)|].
  split; [apply (err_real F b (vneg w) HF Hlx' Hb)|].
  fold X. rewrite !norm_dot. apply sqrt_le_1_alt.
  rewrite (map_ext (fun r => dot r (vneg w)) (fun r => sneg (dot r w)))
    by (intros; apply (dot_vneg (A:=R))).
  rewrite <- (map_map (fun r => dot r w) sneg).
  change (map sneg (map (fun r => dot r w) (rows F)))
    with (vneg (map (fun r => dot r w) (rows F))).
  rewrite (@map_sabs_vneg R Scalar_R ScalarLaws_R).
  rewrite (residual_as_distance X b HlX). fold Yr.
  eapply Rle_trans.
  - apply (residual_below_distance _ b (map sgn X)).
    + rewrite length_map. congruence.
    + rewrite length_map. exact HlX.
    + exact Hpos.
    + apply sgn_is_sign.
  - fold Yr. apply (projection_is_closest F x Yr HF Horth Hx HlY).
Qed.

Lemma for_each_app : forall {S : Type} (body : nat -> S -> result S) l1 l2 s,
  for_each body (l1 ++ l2) s = (s' <- for_each body l1 s ;; for_each body l2 s').
Proof.
  intros S body l1; induction l1 as [|i l1 IH]; intros l2 s; simpl.
  - reflexivity.
  - destruct (body i s) as [s1|e]; simpl; [apply IH | reflexivity].
Qed.

Lemma gs_phaseless_succ : forall {E : Numpy} b F (i : nat) seed os x_i,
  gs_phaseless b F (Z.of_nat i) seed os = Ok x_i ->
  gs_phaseless b F (Z.of_nat (S i)) seed os = gs_step b b F x_i.
Proof.
  intros E b F i seed os x_i Hi. unfold gs_phaseless, range in *.
  rewrite Nat2Z.id in *. rewrite seq_S, for_each_app, Hi. cbn [bind for_each].
  destruct (gs_step b b F x_i); reflexivity.
Qed.

Lemma magnitudes_shape : forall (F : matrix) (x b : list R),
  wf_matrix F -> rmap (map Rabs) (matvec F x) = Ok b ->
  length b = shape0 F /\ Forall (fun c => 0 <= c) b.
Proof.
  intros F x b [Hrows _] Hbx.
  destruct (matvec F x) as [Fx|e] eqn:HFx; [|discriminate].
  injection Hbx as <-. apply matvec_length in HFx. split.
  - rewrite length_map. congruence.
  - apply Forall_forall. intros c Hc. apply in_map_iff in Hc.
    destruct Hc as [a [<- _]]. apply Rabs_pos.
Qed.

(** C9. Let F have orthonormal columns and let b = |F x| for some real x.
    Then along the run of gs_phaseless every iterate x_i (the result after i
    passes) and its successor x_{i+1} exist, and the magnitude-fit residual
    of x_{i+1} is at most the residual of x_i. *)
Theorem residual_non_increasing :
  forall {E : Numpy} (F : matrix) (b x : list R) (seed : option N) (os : N),
  wf_matrix F -> orthonormal_cols F ->
  rmap (map Rabs) (matvec F x) = Ok b ->
  forall i : nat,
  exists (x_i x_i1 : list R) (r_i r_i1 : R),
    gs_phaseless b F (Z.of_nat i) seed os = Ok x_i /\
    gs_phaseless b F (Z.of_nat (S i)) seed os = Ok x_i1 /\
    gs_step b b F x_i = Ok x_i1 /\
    err F b x_i = Ok r_i /\
    err F b x_i1 = Ok r_i1 /\
    r_i1 <= r_i.
Proof.
  intros E F b x seed os HF Horth Hb i.
  destruct (magnitudes_shape F x b HF Hb) as [Hlb Hpos].
  pose proof HF as [Hrows _].
  destruct (gs_loop_total b F i 0 (randunif (shape1 F) (-1) 1 seed os) Hrows)
    as [x_i [Hrun [_ Hli]]].
  - symmetry. apply randunif_length.
  - left. exact Hlb.
  - assert (Hi : gs_phaseless b F (Z.of_nat i) seed os = Ok x_i).
    { unfold gs_phaseless, range. rewrite Nat2Z.id. exact Hrun. }
    destruct (gs_step_residual F b x_i HF Horth Hli Hlb Hpos)
      as [x_i1 [r_i [r_i1 [Hstep [_ [Hr [Hr1 Hle]]]]]]].
    exists x_i, x_i1, r_i, r_i1.
    split; [exact Hi|].
    split; [rewrite (gs_phaseless_succ _ _ _ _ _ _ Hi); exact Hstep|].
    repeat split; assumption.
Qed.

Lemma pythagorean_frame_orthonormal : orthonormal_cols (array2 1 [[3 / 5]; [4 / 5]]).
Proof.
  unfold orthonormal_cols. rewrite gram_rows. unfold identity, col, dot. simpl.
  do 4 f_equal. lra.
Qed.

Lemma residual_non_increasing_witness :
  exists (x_i x_i1 : list R) (r_i r_i1 : R),
    gs_phaseless (E:=counter_numpy) [Rabs (3 / 5 * 1 + 0); Rabs (4 / 5 * 1 + 0)]
      (array2 1 [[3 / 5]; [4 / 5]]) (Z.of_nat 1) (Some 0%N) 0%N = Ok x_i /\
    gs_phaseless (E:=counter_numpy) [Rabs (3 / 5 * 1 + 0); Rabs (4 / 5 * 1 + 0)]
      (array2 1 [[3 / 5]; [4 / 5]]) (Z.of_nat 2) (Some 0%N) 0%N = Ok x_i1 /\
    gs_step [Rabs (3 / 5 * 1 + 0); Rabs (4 / 5 * 1 + 0)]
      [Rabs (3 / 5 * 1 + 0); Rabs (4 / 5 * 1 + 0)] (array2 1 [[3 / 5]; [4 / 5]]) x_i =
      Ok x_i1 /\
    err (array2 1 [[3 / 5]; [4 / 5]])
      [Rabs (3 / 5 * 1 + 0); Rabs (4 / 5 * 1 + 0)] x_i = Ok r_i /\
    err (array2 1 [[3 / 5]; [4 / 5]])
      [Rabs (3 / 5 * 1 + 0); Rabs (4 / 5 * 1 + 0)] x_i1 = Ok r_i1 /\
    r_i1 <= r_i.
Proof.
  apply (residual_non_increasing (E:=counter_numpy) (array2 1 [[3 / 5]; [4 / 5]])
           [Rabs (3 / 5 * 1 + 0); Rabs (4 / 5 * 1 + 0)] [1] (Some 0%N) 0%N).
  - apply wf_array2. repeat constructor.
  - exact pythagorean_frame_orthonormal.
  - reflexivity.
Defined.

(** ** The main routine *)

Lemma evaluate_ok : forall x x0 : list R,
  length x = length x0 -> exists c e, evaluate x x0 = Ok (c, e) /\ length c = length x0.
Proof.
  intros x x0 Hl. unfold evaluate.
  rewrite !broadcast2_same_length by assumption. cbn [bind].
  eexists; eexists; split; [reflexivity|].
  destruct (Rlt_dec _ _); [unfold vneg; apply length_map | reflexivity].
Qed.

(** With the notebook's constants (n = 21, r = 15.5, m = 325 >= n) no array
    operation of the main routine raises: the frame is 325 x 21 with
    orthonormal columns, the magnitudes have one entry per row, the 200
    passes run, and the evaluator returns an estimate of length 21. *)
Lemma main_routine_returns : forall {E : Numpy}, qr_contract E ->
  forall os : N,
  exists (F : matrix) (x0' : list R) (e : R),
    random_frame main_n main_r None (Some 1121%N) os = Ok F /\
    shape0 F = 325%nat /\ shape1 F = 21%nat /\ orthonormal_cols F /\
    main_routine os = Ok (x0', e) /\ length x0' = 21%nat.
Proof.
  intros E Hqr os.
  assert (Hn : (1 <= main_n)%Z) by (vm_compute; discriminate).
  assert (Hfd : frame_dim main_n main_r None = Ok 325%Z) by (vm_compute; reflexivity).
  assert (Hm : (main_n <= 325)%Z) by (vm_compute; discriminate).
  destruct (random_frame_tall Hqr main_n main_r (Some 1121%N) os 325 Hn Hfd Hm)
    as [F [HF [Hwf [H0 [H1 Horth]]]]].
  assert (Hx : length (randunif (Z.to_nat main_n) (-1) 1 (Some 1231%N) os) = shape1 F)
    by (rewrite randunif_length; congruence).
  pose proof Hwf as [Hrows _].
  destruct (gs_loop_total
              (map Rabs (map (fun r => dot r
                 (randunif (Z.to_nat main_n) (-1) 1 (Some 1231%N) os)) (rows F)))
              F (Z.to_nat 200) 0
              (randunif (shape1 F) (-1) 1 (Some 4321%N) os) Hrows)
    as [x0 [Hrun [_ Hl0]]].
  - symmetry. apply randunif_length.
  - left. rewrite !length_map. exact Hrows.
  - destruct (evaluate_ok (randunif (Z.to_nat main_n) (-1) 1 (Some 1231%N) os) x0)
      as [c [e [Hev Hlc]]]; [congruence|].
    exists F, c, e.
    split; [exact HF|]. split; [rewrite H0; reflexivity|].
    split; [rewrite H1; reflexivity|].
    split; [exact Horth|].
    split.
    + unfold main_routine. rewrite HF. cbn [bind].
      rewrite matvec_rows by (symmetry; exact Hx). cbn [bind].
      unfold gs_phaseless, range. rewrite Hrun. cbn [bind]. exact Hev.
    + rewrite Hlc, Hl0, H1. reflexivity.
Qed.

(** * Further properties of the notebook's functions *)

(** ** The sampler *)

Lemma rng_random_range : forall {E : Numpy}, rng_contract E ->
  forall (n : nat) (g : bitgen),
  Forall (fun u => 0 <= u < 1) (fst (rng_random n g)).
Proof.
  intros E HE n; induction n as [|n IH]; intros g; simpl.
  - constructor.
  - pose proof (HE g) as Hu. destruct (next_double g) as [u g1]. specialize (IH g1).
    destruct (rng_random n g1) as [us g2]. simpl in *. constructor; assumption.
Qed.

Lemma counter_numpy_rng_contract : rng_contract counter_numpy.
Proof. intros g; simpl. destruct (N.even g); simpl; lra. Qed.

(** X1. [randunif(n, a, b, seed)] returns n numbers; for a < b each of them
    lies in [a, b), for b < a each lies in (b, a], and for a = b each is a
    (for a generator whose draws lie in [0, 1)). *)
Theorem randunif_range :
  forall {E : Numpy}, rng_contract E ->
  forall (n : nat) (a b : R) (seed : option N) (os : N),
  length (randunif n a b seed os) = n /\
  (a < b -> Forall (fun v => a <= v < b) (randunif n a b seed os)) /\
  (b < a -> Forall (fun v => b < v <= a) (randunif n a b seed os)) /\
  (a = b -> Forall (fun v => v = a) (randunif n a b seed os)).
Proof.
  intros E HE n a b seed os. split; [apply randunif_length|].
  pose proof (rng_random_range HE n (default_rng seed os)) as Hr.
  rewrite Forall_forall in Hr.
  repeat split; intros Hab; apply Forall_forall; intros v Hv;
    unfold randunif in Hv; apply in_map_iff in Hv; destruct Hv as [u [<- Hu]];
    specialize (Hr u Hu); nra.
Qed.

Lemma randunif_range_witness :
  length (randunif (E:=counter_numpy) 2 (-1) 1 (Some 0%N) 0%N) = 2%nat /\
  (-1 < 1 -> Forall (fun v => -1 <= v < 1)
               (randunif (E:=counter_numpy) 2 (-1) 1 (Some 0%N) 0%N)) /\
  (1 < -1 -> Forall (fun v => 1 < v <= -1)
               (randunif (E:=counter_numpy) 2 (-1) 1 (Some 0%N) 0%N)) /\
  (-1 = 1 -> Forall (fun v => v = -1)
               (randunif (E:=counter_numpy) 2 (-1) 1 (Some 0%N) 0%N)).
Proof.
  exact (randunif_range (E:=counter_numpy) counter_numpy_rng_contract
           2 (-1) 1 (Some 0%N) 0%N).
Defined.

(** ** Shape and realness of the iterates *)

Lemma gs_step_length : forall (b magnitude : list R) (F : matrix) (x x1 : list R),
  gs_step b magnitude F x = Ok x1 -> length x1 = shape1 F.
Proof.
  intros b magnitude F x x1; unfold gs_step, min_err.
  destruct (gs_candidate b F x) as [y0|e] eqn:Hc; cbn [bind]; [|discriminate].
  apply gs_candidate_length in Hc.
  destruct (err F magnitude y0) as [e1|e]; cbn [bind]; [|discriminate].
  destruct (err F magnitude (vneg y0)) as [e2|e]; cbn [bind]; [|discriminate].
  intros H1; injection H1 as <-. rewrite length_map.
  destruct (Rlt_dec e1 e2); [|unfold vneg; rewrite length_map]; exact Hc.
Qed.

Lemma for_each_gs_length : forall (b magnitude : list R) (F : matrix) idx x x',
  length x = shape1 F ->
  for_each (fun _ x => gs_step b magnitude F x) idx x = Ok x' ->
  length x' = shape1 F.
Proof.
  intros b magnitude F idx; induction idx as [|i idx IH]; intros x x' Hx; simpl.
  - intros H; injection H as <-. exact Hx.
  - destruct (gs_step b magnitude F x) as [x1|e] eqn:H1; cbn [bind]; [|discriminate].
    apply IH. apply (gs_step_length _ _ _ _ _ H1).
Qed.

(** X2. Whatever the magnitudes, the frame, the iteration count and the
    seed, an estimate that gs_phaseless returns has exactly [F.shape[1]]
    entries. *)
Theorem gs_phaseless_length :
  forall {E : Numpy} (magnitude : list R) (F : matrix) (num_iter : Z)
         (seed : option N) (os : N) (x' : list R),
  gs_phaseless magnitude F num_iter seed os = Ok x' -> length x' = shape1 F.
Proof.
  intros E magnitude F num_iter seed os x' Hrun. unfold gs_phaseless in Hrun.
  apply (for_each_gs_length _ _ _ _ _ _ (randunif_length _ _ _ _ _) Hrun).
Qed.

Lemma gs_phaseless_length_witness :
  length [1; 0] = shape1 (array2 2 [[1; 0]]).
Proof.
  exact (gs_phaseless_length (E:=counter_numpy) [1] (array2 2 [[1; 0]]) 1
           (Some 0%N) 0%N [1; 0] wide_frame_pass).
Defined.

Lemma gs_candidate_real : forall (b : list R) (F : matrix) (x : list R),
  gs_candidate b F x =
  rmap (map RtoC)
    (X <- matvec F x ;;
     Yr <- broadcast2 Rmult b (map sgn X) ;;
     matvec (transpose F) Yr).
Proof.
  intros b F x. rewrite gs_candidate_unfold.
  destruct (matvec F x) as [X|e]; cbn [bind]; [|reflexivity].
  rewrite (map_ext _ (fun Xk => RtoC (sgn Xk))) by (intros; apply phase_of_real).
  rewrite broadcast2_map_r.
  rewrite (broadcast2_ext _ (fun a t => RtoC (a * sgn t)))
    by (intros; apply Cmul_RtoC).
  rewrite (broadcast2_map_out (fun a t => a * sgn t) RtoC).
  rewrite <- (broadcast2_map_r Rmult sgn).
  destruct (broadcast2 Rmult b (map sgn X)) as [Yr|e]; cbn [bind rmap]; [|reflexivity].
  apply matvec_RtoC.
Qed.

(** X3. The back-projected candidate y0 of a pass has no imaginary part: it
    is the real vector F^T (b * sgn(F x)) read as complex, so [np.real]
    discards nothing (in exact arithmetic). *)
Theorem gs_candidate_is_real :
  forall (b : list R) (F : matrix) (x : list R) (y0 : list C),
  gs_candidate b F x = Ok y0 ->
  Forall (fun z => im z = 0) y0 /\
  map RtoC (map re y0) = y0 /\
  exists X Yr, matvec F x = Ok X /\
               broadcast2 Rmult b (map sgn X) = Ok Yr /\
               matvec (transpose F) Yr = Ok (map re y0).
Proof.
  intros b F x y0 Hc. rewrite gs_candidate_real in Hc.
  destruct (matvec F x) as [X|e] eqn:HX; cbn [bind] in Hc; [|discriminate].
  destruct (broadcast2 Rmult b (map sgn X)) as [Yr|e] eqn:HY; cbn [bind] in Hc;
    [|discriminate].
  destruct (matvec (transpose F) Yr) as [w|e] eqn:Hw; cbn [rmap] in Hc; [|discriminate].
  injection Hc as <-.
  assert (Hre : map re (map RtoC w) = w).
  { rewrite map_map. rewrite <- (map_id w) at 2. apply map_ext. reflexivity. }
  split; [|split].
  - apply Forall_forall. intros z Hz. apply in_map_iff in Hz.
    destruct Hz as [a [<- _]]. reflexivity.
  - rewrite Hre. reflexivity.
  - exists X, Yr. rewrite Hre. repeat split; assumption.
Qed.

Lemma gs_candidate_is_real_witness :
  Forall (fun z => im z = 0) [RtoC 1] /\
  map RtoC (map re [RtoC 1]) = [RtoC 1] /\
  exists X Yr, matvec (array2 1 [[1]]) [1 / 2] = Ok X /\
               broadcast2 Rmult [1] (map sgn X) = Ok Yr /\
               matvec (transpose (array2 1 [[1]])) Yr = Ok (map re [RtoC 1]).
Proof.
  exact (gs_candidate_is_real [1] (array2 1 [[1]]) [1 / 2] [RtoC 1] unit_frame_candidate).
Defined.

(** ** Signals that fit the magnitudes *)

Lemma abs_times_sgn : forall a : R, Rabs a * sgn a = a.
Proof.
  intros a; unfold Rabs, sgn.
  destruct (Rcase_abs a); destruct (Rlt_dec a 0); try lra; ring.
Qed.

Lemma zip_abs_sgn : forall X : list R, zip_with Rmult (map Rabs X) (map sgn X) = X.
Proof.
  induction X as [|a X IH]; [reflexivity|].
  cbn [map zip_with]. rewrite abs_times_sgn, IH. reflexivity.
Qed.

Lemma dot_sub_same : forall u : list R,
  dot (zip_with Rminus u u) (zip_with Rminus u u) = 0.
Proof.
  induction u as [|a u IH]; [reflexivity|].
  cbn [zip_with]. rewrite dot_cons, IH. ring.
Qed.

Lemma norm_sub_same : forall u : list R, norm (zip_with Rminus u u) = 0.
Proof. intros u. rewrite norm_dot, dot_sub_same. apply sqrt_0. Qed.

Lemma magnitudes_of : forall (F : matrix) (z b : list R),
  rmap (map Rabs) (matvec F z) = Ok b ->
  shape1 F = length z /\ b = map Rabs (map (fun r => dot r z) (rows F)).
Proof.
  intros F z b; unfold matvec.
  destruct (Nat.eqb_spec (shape1 F) (length z)) as [Hz|Hz]; simpl; [|discriminate].
  intros Hb; injection Hb as <-. split; [exact Hz | reflexivity].
Qed.

(** A signal z with |F z| = b is sent to -z by one pass, at residual 0. *)
Lemma gs_step_at_solution : forall (F : matrix) (z b : list R),
  wf_matrix F -> orthonormal_cols F ->
  rmap (map Rabs) (matvec F z) = Ok b ->
  gs_step b b F z = Ok (vneg z) /\ err F b z = Ok 0.
Proof.
  intros F z b HF Horth Hb. pose proof HF as [Hrows _].
  destruct (magnitudes_of F z b Hb) as [Hz ->].
  set (X := map (fun r => dot r z) (rows F)).
  assert (HlX : length X = shape0 F) by (unfold X; rewrite length_map; exact Hrows).
  split.
  - rewrite gs_step_real, matvec_rows by exact Hz. cbn [bind]. fold X.
    rewrite broadcast2_same_length by (rewrite !length_map; reflexivity).
    cbn [bind]. rewrite zip_abs_sgn.
    rewrite matvec_transpose_rows by (symmetry; exact HlX). cbn [bind].
    unfold X. rewrite (synthesis_after_analysis F z HF Horth (eq_sym Hz)). reflexivity.
  - rewrite err_real; [|exact HF|symmetry; exact Hz|rewrite length_map; exact HlX].
    fold X. rewrite norm_sub_same. reflexivity.
Qed.

Lemma magnitudes_vneg : forall (F : matrix) (z b : list R),
  rmap (map Rabs) (matvec F z) = Ok b ->
  rmap (map Rabs) (matvec F (vneg z)) = Ok b.
Proof.
  intros F z b Hb. rewrite matvec_vneg.
  destruct (matvec F z) as [u|e]; simpl in *; [|discriminate].
  rewrite (@map_sabs_vneg R Scalar_R ScalarLaws_R). exact Hb.
Qed.

Lemma gs_loop_at_solution : forall (F : matrix) (z b : list R),
  wf_matrix F -> orthonormal_cols F ->
  rmap (map Rabs) (matvec F z) = Ok b ->
  forall (k s : nat),
  for_each (fun _ x => gs_step b b F x) (seq s k) z =
  Ok (if Nat.even k then z else vneg z).
Proof.
  intros F z b HF Horth Hb k; revert z Hb.
  induction k as [|k IH]; intros z Hb s; [reflexivity|].
  rewrite for_each_passes.
  rewrite (proj1 (gs_step_at_solution F z b HF Horth Hb)). cbn [bind].
  rewrite (IH (vneg z) (magnitudes_vneg F z b Hb) (S s)).
  rewrite vneg_vneg. rewrite Nat.even_succ, <- Nat.negb_even.
  destruct (Nat.even k); reflexivity.
Qed.

(** X4. If F has orthonormal columns and z is any signal that fits the
    magnitudes, |F z| = b, then one pass sends z to -z and -z back to z, and
    both have residual 0: the pair {z, -z} is a 2-cycle of the iteration. *)
Theorem solution_two_cycle :
  forall (F : matrix) (z b : list R),
  wf_matrix F -> orthonormal_cols F ->
  rmap (map Rabs) (matvec F z) = Ok b ->
  gs_step b b F z = Ok (vneg z) /\
  gs_step b b F (vneg z) = Ok z /\
  err F b z = Ok 0 /\
  err F b (vneg z) = Ok 0.
Proof.
  intros F z b HF Horth Hb.
  destruct (gs_step_at_solution F z b HF Horth Hb) as [H1 H2].
  destruct (gs_step_at_solution F (vneg z) b HF Horth (magnitudes_vneg F z b Hb))
    as [H3 H4].
  rewrite vneg_vneg in H3. repeat split; assumption.
Qed.

Lemma solution_two_cycle_witness :
  gs_step [Rabs (3 / 5 * 1 + 0); Rabs (4 / 5 * 1 + 0)]
    [Rabs (3 / 5 * 1 + 0); Rabs (4 / 5 * 1 + 0)] (array2 1 [[3 / 5]; [4 / 5]]) [1] =
    Ok (vneg [1]) /\
  gs_step [Rabs (3 / 5 * 1 + 0); Rabs (4 / 5 * 1 + 0)]
    [Rabs (3 / 5 * 1 + 0); Rabs (4 / 5 * 1 + 0)] (array2 1 [[3 / 5]; [4 / 5]]) (vneg [1]) =
    Ok [1] /\
  err (array2 1 [[3 / 5]; [4 / 5]])
    [Rabs (3 / 5 * 1 + 0); Rabs (4 / 5 * 1 + 0)] [1] = Ok 0 /\
  err (array2 1 [[3 / 5]; [4 / 5]])
    [Rabs (3 / 5 * 1 + 0); Rabs (4 / 5 * 1 + 0)] (vneg [1]) = Ok 0.
Proof.
  apply (solution_two_cycle (array2 1 [[3 / 5]; [4 / 5]]) [1]
           [Rabs (3 / 5 * 1 + 0); Rabs (4 / 5 * 1 + 0)]).
  - apply wf_array2. repeat constructor.
  - exact pythagorean_frame_orthonormal.
  - reflexivity.
Defined.

(** X5. Reusing the signal's seed for the retrieval makes the test vacuous:
    if x = randunif(n, -1, 1, seed) and b = |F x| for a frame with
    orthonormal columns, then gs_phaseless(b, F, num_iter, seed) starts at x
    itself and returns x for an even and -x for an odd number of passes. *)
Theorem seed_reuse_starts_at_signal :
  forall {E : Numpy} (F : matrix) (b : list R) (num_iter : Z) (seed : option N) (os : N),
  wf_matrix F -> orthonormal_cols F -> (0 <= num_iter)%Z ->
  rmap (map Rabs) (matvec F (randunif (shape1 F) (-1) 1 seed os)) = Ok b ->
  gs_phaseless b F num_iter seed os =
  Ok (if Z.even num_iter then randunif (shape1 F) (-1) 1 seed os
      else vneg (randunif (shape1 F) (-1) 1 seed os)).
Proof.
  intros E F b num_iter seed os HF Horth Hn Hb. unfold gs_phaseless, range.
  rewrite (gs_loop_at_solution F _ b HF Horth Hb).
  replace (Nat.even (Z.to_nat num_iter)) with (Z.even num_iter); [reflexivity|].
  rewrite <- (Z2Nat.id num_iter) at 1 by assumption.
  symmetry. clear. induction (Z.to_nat num_iter) as [|k IH]; [reflexivity|].
  rewrite Nat2Z.inj_succ, Z.even_succ, Nat.even_succ, <- Z.negb_even, <- Nat.negb_even.
  rewrite IH. reflexivity.
Qed.

Lemma seed_reuse_starts_at_signal_witness :
  gs_phaseless (E:=counter_numpy)
    (map Rabs (map (fun r => dot r (randunif (E:=counter_numpy) 1 (-1) 1 (Some 0%N) 0%N))
                 [[3 / 5]; [4 / 5]]))
    (array2 1 [[3 / 5]; [4 / 5]]) 3 (Some 0%N) 0%N =
  Ok (if Z.even 3 then randunif (E:=counter_numpy) 1 (-1) 1 (Some 0%N) 0%N
      else vneg (randunif (E:=counter_numpy) 1 (-1) 1 (Some 0%N) 0%N)).
Proof.
  apply (seed_reuse_starts_at_signal (E:=counter_numpy) (array2 1 [[3 / 5]; [4 / 5]])
           _ 3 (Some 0%N) 0%N).
  - apply wf_array2. repeat constructor.
  - exact pythagorean_frame_orthonormal.
  - lia.
  - reflexivity.
Defined.

(** ** All-zero magnitudes *)

Lemma zip_mult_zeros : forall (m : nat) (S : list R),
  length S = m -> zip_with Rmult (repeat 0 m) S = repeat 0 m.
Proof.
  induction m as [|m IH]; intros [|s S] Hl; try discriminate; [reflexivity|].
  injection Hl as Hl. cbn [repeat zip_with]. rewrite (IH S Hl), Rmult_0_l. reflexivity.
Qed.

Lemma dot_zeros_r : forall (r : list R) (m : nat), dot r (repeat 0 m) = 0.
Proof.
  induction r as [|a r IH]; intros [|m]; try reflexivity.
  cbn [repeat]. rewrite dot_cons, IH. ring.
Qed.

Lemma map_zero_seq : forall s n : nat, map (fun _ : nat => 0) (seq s n) = repeat 0 n.
Proof.
  intros s n; revert s; induction n as [|n IH]; intros s; [reflexivity|].
  cbn [seq map repeat]. rewrite IH. reflexivity.
Qed.

Lemma vneg_zeros : forall n : nat, vneg (repeat 0 n) = repeat 0 n.
Proof.
  induction n as [|n IH]; [reflexivity|].
  unfold vneg in *. cbn [repeat map]. rewrite IH. simpl. rewrite Ropp_0. reflexivity.
Qed.

Lemma gs_step_zero_magnitudes : forall (F : matrix) (x : list R),
  length (rows F) = shape0 F -> shape1 F = length x ->
  gs_step (repeat 0 (shape0 F)) (repeat 0 (shape0 F)) F x = Ok (repeat 0 (shape1 F)).
Proof.
  intros F x Hrows Hx.
  rewrite gs_step_real, matvec_rows by exact Hx. cbn [bind].
  rewrite broadcast2_same_length by (rewrite repeat_length, !length_map; congruence).
  cbn [bind]. rewrite zip_mult_zeros by (rewrite !length_map; exact Hrows).
  rewrite matvec_transpose_rows by (rewrite repeat_length; reflexivity). cbn [bind].
  rewrite (map_ext _ (fun _ => 0)) by (intros; apply dot_zeros_r).
  rewrite map_zero_seq, vneg_zeros. reflexivity.
Qed.

(** X6. With all-zero magnitudes (one per row of the frame) and at least one
    pass, gs_phaseless returns the all-zero vector, whatever the frame and
    the initial guess. *)
Theorem zero_magnitudes_give_zero :
  forall {E : Numpy} (F : matrix) (num_iter : Z) (seed : option N) (os : N),
  wf_matrix F -> (1 <= num_iter)%Z ->
  gs_phaseless (repeat 0 (shape0 F)) F num_iter seed os = Ok (repeat 0 (shape1 F)).
Proof.
  intros E F num_iter seed os [Hrows _] Hn. unfold gs_phaseless, range.
  destruct (Z.to_nat num_iter) as [|k] eqn:Hk; [lia|].
  rewrite for_each_passes, gs_step_zero_magnitudes
    by (try exact Hrows; symmetry; apply randunif_length).
  cbn [bind]. generalize 1%nat. clear Hk.
  induction k as [|k IH]; intros s; [reflexivity|].
  rewrite for_each_passes, gs_step_zero_magnitudes
    by (try exact Hrows; symmetry; apply repeat_length).
  cbn [bind]. apply IH.
Qed.

Lemma zero_magnitudes_give_zero_witness :
  gs_phaseless (E:=counter_numpy) (repeat 0 (shape0 (array2 2 [[1; 0]])))
    (array2 2 [[1; 0]]) 5 (Some 0%N) 0%N =
  Ok (repeat 0 (shape1 (array2 2 [[1; 0]]))).
Proof.
  apply (zero_magnitudes_give_zero (E:=counter_numpy) (array2 2 [[1; 0]]) 5 (Some 0%N) 0%N).
  - apply wf_array2. repeat constructor.
  - lia.
Defined.

(** ** Rescaling the iterate and the magnitudes *)

Lemma dot_scale_r : forall (c : R) (r y : list R),
  dot r (map (Rmult c) y) = c * dot r y.
Proof.
  intros c; induction r as [|a r IH]; intros [|b y]; cbn [map].
  - rewrite !dot_nil_l. ring.
  - rewrite !dot_nil_l. ring.
  - rewrite !dot_nil_r. ring.
  - rewrite !dot_cons, IH. ring.
Qed.

Lemma matvec_scale : forall (c : R) (M : matrix) (y : list R),
  matvec M (map (Rmult c) y) = rmap (map (Rmult c)) (matvec M y).
Proof.
  intros c M y; unfold matvec. rewrite length_map.
  destruct (Nat.eqb (shape1 M) (length y)); simpl; [|reflexivity].
  f_equal. rewrite map_map. apply map_ext. intros r. apply dot_scale_r.
Qed.

Lemma sgn_scale : forall c a : R, 0 < c -> sgn (c * a) = sgn a.
Proof.
  intros c a Hc; unfold sgn.
  destruct (Rlt_dec (c * a) 0); destruct (Rlt_dec a 0); try reflexivity; exfalso; nra.
Qed.

Lemma zip_with_map_l : forall {A A' B D : Type} (f : A' -> B -> D) (g : A -> A') u v,
  zip_with f (map g u) v = zip_with (fun a b => f (g a) b) u v.
Proof.
  intros A A' B D f g u; induction u as [|a u IH]; intros [|b v]; simpl; try reflexivity.
  f_equal. apply IH.
Qed.

Lemma broadcast2_map_l : forall {A A' B D : Type} (f : A' -> B -> D) (g : A -> A') u v,
  broadcast2 f (map g u) v = broadcast2 (fun a b => f (g a) b) u v.
Proof.
  intros A A' B D f g u v; unfold broadcast2. rewrite length_map.
  destruct (Nat.eqb (length u) (length v)).
  - rewrite zip_with_map_l. reflexivity.
  - destruct u as [|a [|a' u]]; destruct v as [|b [|b' v]]; simpl; try reflexivity;
      rewrite map_map; reflexivity.
Qed.

Lemma gs_step_scale_x : forall (c : R) (b : list R) (F : matrix) (x : list R),
  0 < c -> gs_step b b F (map (Rmult c) x) = gs_step b b F x.
Proof.
  intros c b F x Hc. rewrite !gs_step_real, matvec_scale.
  destruct (matvec F x) as [X|e]; cbn [rmap bind]; [|reflexivity].
  rewrite map_map, (map_ext (fun a => sgn (c * a)) sgn) by (intros; apply sgn_scale; exact Hc).
  reflexivity.
Qed.

Lemma gs_step_scale_b : forall (c : R) (b : list R) (F : matrix) (x : list R),
  gs_step (map (Rmult c) b) (map (Rmult c) b) F x =
  rmap (map (Rmult c)) (gs_step b b F x).
Proof.
  intros c b F x. rewrite !gs_step_real.
  destruct (matvec F x) as [X|e]; cbn [rmap bind]; [|reflexivity].
  rewrite broadcast2_map_l.
  rewrite (broadcast2_ext _ (fun a s => c * (a * s))) by (intros; ring).
  rewrite (broadcast2_map_out Rmult (Rmult c)).
  destruct (broadcast2 Rmult b (map sgn X)) as [Yr|e]; cbn [rmap bind]; [|reflexivity].
  rewrite matvec_scale.
  destruct (matvec (transpose F) Yr) as [w|e]; cbn [rmap bind]; [|reflexivity].
  f_equal. unfold vneg. rewrite !map_map. apply map_ext. intros a; simpl. ring.
Qed.

(** X7. A pass reads the iterate only through the signs of F x: rescaling
    the iterate by any c > 0 leaves the outcome of the pass (the next
    iterate, or the exception) unchanged. *)
Theorem pass_ignores_scale_of_iterate :
  forall (c : R) (b : list R) (F : matrix) (x : list R),
  0 < c -> gs_step b b F (map (Rmult c) x) = gs_step b b F x.
Proof. exact gs_step_scale_x. Qed.

Lemma pass_ignores_scale_of_iterate_witness :
  gs_step [1] [1] (array2 1 [[1]]) (map (Rmult 2) [1 / 2]) =
  gs_step [1] [1] (array2 1 [[1]]) [1 / 2].
Proof.
  apply (pass_ignores_scale_of_iterate 2 [1] (array2 1 [[1]]) [1 / 2]). lra.
Defined.

Lemma gs_loop_scaled : forall (c : R) (b : list R) (F : matrix),
  0 < c ->
  forall (k s : nat) (x : list R),
  for_each (fun _ x => gs_step (map (Rmult c) b) (map (Rmult c) b) F x) (seq s k)
    (map (Rmult c) x) =
  rmap (map (Rmult c)) (for_each (fun _ x => gs_step b b F x) (seq s k) x).
Proof.
  intros c b F Hc k; induction k as [|k IH]; intros s x; [reflexivity|].
  rewrite !for_each_passes, gs_step_scale_b, gs_step_scale_x by exact Hc.
  destruct (gs_step b b F x) as [x1|e]; cbn [rmap bind]; [apply IH | reflexivity].
Qed.

(** X8. The estimate is positively homogeneous in the magnitudes: for c > 0
    and at least one pass, gs_phaseless(c*b, F) returns c times what
    gs_phaseless(b, F) returns with the same seed, and raises exactly when
    it does. *)
Theorem estimate_scales_with_magnitudes :
  forall {E : Numpy} (c : R) (b : list R) (F : matrix) (num_iter : Z)
         (seed : option N) (os : N),
  0 < c -> (1 <= num_iter)%Z ->
  gs_phaseless (map (Rmult c) b) F num_iter seed os =
  rmap (map (Rmult c)) (gs_phaseless b F num_iter seed os).
Proof.
  intros E c b F num_iter seed os Hc Hn. unfold gs_phaseless, range.
  destruct (Z.to_nat num_iter) as [|k] eqn:Hk; [lia|].
  rewrite !for_each_passes, gs_step_scale_b.
  destruct (gs_step b b F (randunif (shape1 F) (-1) 1 seed os)) as [x1|e];
    cbn [rmap bind]; [|reflexivity].
  apply gs_loop_scaled. exact Hc.
Qed.

Lemma estimate_scales_with_magnitudes_witness :
  gs_phaseless (E:=counter_numpy) (map (Rmult 2) [1]) (array2 2 [[1; 0]]) 1
    (Some 0%N) 0%N =
  rmap (map (Rmult 2))
    (gs_phaseless (E:=counter_numpy) [1] (array2 2 [[1; 0]]) 1 (Some 0%N) 0%N).
Proof.
  apply (estimate_scales_with_magnitudes (E:=counter_numpy) 2 [1] (array2 2 [[1; 0]]) 1
           (Some 0%N) 0%N).
  - lra.
  - lia.
Defined.

(** ** Norms along a run *)

Lemma analysis_isometry : forall (F : matrix) (u v : list R),
  wf_matrix F -> orthonormal_cols F -> length v = shape1 F ->
  dot (map (fun r => dot r u) (rows F)) (map (fun r => dot r v) (rows F)) = dot u v.
Proof.
  intros F u v HF Horth Hv.
  rewrite (adjoint F u _ HF), (synthesis_after_analysis F v HF Horth Hv). reflexivity.
Qed.

Lemma dot_vneg_self : forall w : list R, dot (vneg w) (vneg w) = dot w w.
Proof.
  induction w as [|a w IH]; [reflexivity|].
  unfold vneg in *. cbn [map]. rewrite !dot_cons, IH. simpl. ring.
Qed.

Lemma dot_signed_self : forall b S : list R,
  length S = length b -> Forall (fun s => s = 1 \/ s = -1) S ->
  dot (zip_with Rmult b S) (zip_with Rmult b S) = dot b b.
Proof.
  induction b as [|c b IH]; intros [|s S] Hl HS; try discriminate; [reflexivity|].
  injection Hl as Hl. inversion HS as [|? ? Hs HS']; subst.
  cbn [zip_with]. rewrite !dot_cons, (IH S Hl HS').
  destruct Hs as [-> | ->]; ring.
Qed.

(** |F^T y| <= |y| for a frame with orthonormal columns. *)
Lemma synthesis_contracts : forall (F : matrix) (y : list R),
  wf_matrix F -> orthonormal_cols F -> length y = shape0 F ->
  dot (map (fun j => dot (col j F) y) (seq 0 (shape1 F)))
      (map (fun j => dot (col j F) y) (seq 0 (shape1 F))) <= dot y y.
Proof.
  intros F y HF Horth Hy.
  set (w := map (fun j => dot (col j F) y) (seq 0 (shape1 F))).
  assert (Hw : length w = shape1 F)
    by (unfold w; rewrite length_map, length_seq; reflexivity).
  set (Fw := map (fun r => dot r w) (rows F)).
  assert (HlFw : length Fw = length y)
    by (unfold Fw; rewrite length_map, Hy; apply HF).
  pose proof (dot_self_nonneg (zip_with Rminus Fw y)) as Hpos.
  rewrite (dot_sub_self Fw y HlFw) in Hpos.
  unfold Fw in Hpos.
  rewrite (analysis_isometry F w w HF Horth Hw), (adjoint F w y HF) in Hpos.
  fold w in Hpos. lra.
Qed.

Lemma gs_step_bounded : forall (F : matrix) (b x x1 : list R),
  wf_matrix F -> orthonormal_cols F -> length b = shape0 F ->
  gs_step b b F x = Ok x1 -> norm x1 <= norm b.
Proof.
  intros F b x x1 HF Horth Hb Hstep. pose proof HF as [Hrows _].
  rewrite gs_step_real in Hstep.
  destruct (matvec F x) as [X|e] eqn:HX; cbn [bind] in Hstep; [|discriminate].
  apply matvec_length in HX.
  rewrite broadcast2_same_length in Hstep by (rewrite length_map; congruence).
  cbn [bind] in Hstep.
  assert (HlY : length (zip_with Rmult b (map sgn X)) = shape0 F).
  { rewrite zip_with_length by (rewrite length_map; congruence). exact Hb. }
  rewrite matvec_transpose_rows in Hstep by (symmetry; exact HlY).
  cbn [bind] in Hstep. injection Hstep as <-.
  rewrite !norm_dot, dot_vneg_self. apply sqrt_le_1_alt.
  eapply Rle_trans; [apply (synthesis_contracts F _ HF Horth HlY)|].
  rewrite dot_signed_self; [lra | rewrite length_map; congruence | apply sgn_is_sign].
Qed.

Lemma gs_run_bounded :
  forall {E : Numpy} (F : matrix) (b : list R) (num_iter : Z) (seed : option N) (os : N)
         (x' : list R),
  wf_matrix F -> orthonormal_cols F -> length b = shape0 F -> (1 <= num_iter)%Z ->
  gs_phaseless b F num_iter seed os = Ok x' ->
  norm x' <= norm b.
Proof.
  intros E F b num_iter seed os x' HF Horth Hb Hn Hrun.
  unfold gs_phaseless, range in Hrun.
  destruct (Z.to_nat num_iter) as [|k] eqn:Hk; [lia|].
  rewrite seq_S, for_each_app in Hrun.
  destruct (for_each _ (seq 0 k) _) as [xk|e]; cbn [bind for_each] in Hrun; [|discriminate].
  destruct (gs_step b b F xk) as [x1|e] eqn:H1; cbn [bind] in Hrun; [|discriminate].
  injection Hrun as <-. exact (gs_step_bounded F b xk x1 HF Horth Hb H1).
Qed.

(** X9. For a frame with orthonormal columns and one magnitude per row, an
    estimate returned after at least one pass is never longer than the
    magnitude vector: |x^| <= |b|. *)
Theorem estimate_bounded_by_magnitudes :
  forall {E : Numpy} (F : matrix) (b : list R) (num_iter : Z) (seed : option N) (os : N)
         (x' : list R),
  wf_matrix F -> orthonormal_cols F -> length b = shape0 F -> (1 <= num_iter)%Z ->
  gs_phaseless b F num_iter seed os = Ok x' ->
  norm x' <= norm b.
Proof. intros E. exact gs_run_bounded. Qed.

Lemma pythagorean_run :
  gs_phaseless (E:=counter_numpy) [3 / 5; 4 / 5] (array2 1 [[3 / 5]; [4 / 5]]) 1
    (Some 0%N) 0%N = Ok [1].
Proof.
  unfold gs_phaseless, range. simpl Z.to_nat. simpl seq. cbn [for_each].
  change (shape1 (array2 1 [[3 / 5]; [4 / 5]])) with 1%nat.
  rewrite gs_step_real, counter_randunif_1.
  unfold matvec, dot, col, broadcast2. simpl.
  rewrite !sgn_neg by lra.
  f_equal. f_equal. lra.
Qed.

Lemma estimate_bounded_by_magnitudes_witness : norm [1] <= norm [3 / 5; 4 / 5].
Proof.
  apply (estimate_bounded_by_magnitudes (E:=counter_numpy) (array2 1 [[3 / 5]; [4 / 5]])
           [3 / 5; 4 / 5] 1 (Some 0%N) 0%N [1]).
  - apply wf_array2. repeat constructor.
  - exact pythagorean_frame_orthonormal.
  - reflexivity.
  - lia.
  - exact pythagorean_run.
Defined.

(** X10. When the frame dimension the code computes, m =
    int(input_dimension * redundancy) with the product taken as Python takes
    it, is at least n >= 1, the frame that random_frame returns is an
    isometry: F v is defined for every v of length n, has m entries and the
    same Euclidean norm as v (so the magnitudes |F x| carry the norm of the
    signal). *)
Theorem random_frame_is_isometry :
  forall {E : Numpy}, qr_contract E ->
  forall (n : Z) (r : number) (seed : option N) (os : N) (m : Z),
  (1 <= n)%Z -> frame_dim n r None = Ok m -> (n <= m)%Z ->
  exists F, random_frame n r None seed os = Ok F /\
    forall v : list R, length v = Z.to_nat n ->
    exists u, matvec F v = Ok u /\
              length u = Z.to_nat m /\
              norm u = norm v /\ norm (map Rabs u) = norm v.
Proof.
  intros E Hqr n r seed os m Hn Hfd Hm.
  destruct (random_frame_tall Hqr n r seed os m Hn Hfd Hm)
    as [F [HF [Hwf [H0 [H1 Horth]]]]].
  exists F. split; [exact HF|]. intros v Hv.
  exists (map (fun row => dot row v) (rows F)).
  split; [apply matvec_rows; congruence|].
  split; [rewrite length_map; destruct Hwf as [Hrows _]; congruence|].
  assert (Hiso : norm (map (fun row => dot row v) (rows F)) = norm v).
  { rewrite !norm_dot. f_equal. apply analysis_isometry; [assumption..|congruence]. }
  split; [exact Hiso|].
  rewrite <- Hiso. unfold norm. f_equal. rewrite !map_map. f_equal.
  apply map_ext. intros row. unfold Rabs. destruct (Rcase_abs _); ring.
Qed.

Lemma random_frame_is_isometry_witness :
  exists F, random_frame (E:=counter_numpy) 3
              (PyFloat (SFdiv 53 1024 (float64 4 0) (float64 3 0))) None
              (Some 7%N) 0%N = Ok F /\
    forall v : list R, length v = Z.to_nat 3 ->
    exists u, matvec F v = Ok u /\
              length u = Z.to_nat 4 /\
              norm u = norm v /\ norm (map Rabs u) = norm v.
Proof.
  apply (random_frame_is_isometry (E:=counter_numpy) counter_numpy_qr_contract
           3 (PyFloat (SFdiv 53 1024 (float64 4 0) (float64 3 0))) (Some 7%N) 0%N 4).
  - lia.
  - vm_compute. reflexivity.
  - lia.
Defined.

Lemma gs_loop_residual : forall (F : matrix) (b : list R),
  wf_matrix F -> orthonormal_cols F -> length b = shape0 F ->
  Forall (fun c => 0 <= c) b ->
  forall (k s : nat) (x : list R), length x = shape1 F ->
  exists x' r r',
    for_each (fun _ x => gs_step b b F x) (seq s k) x = Ok x' /\
    err F b x = Ok r /\ err F b x' = Ok r' /\ r' <= r.
Proof.
  intros F b HF Horth Hb Hpos k; induction k as [|k IH]; intros s x Hx.
  - exists x. eexists. eexists.
    split; [reflexivity|]. split; [apply (err_real F b x HF Hx Hb)|].
    split; [apply (err_real F b x HF Hx Hb)|]. lra.
  - destruct (gs_step_residual F b x HF Horth Hx Hb Hpos)
      as [x1 [r [r1 [Hstep [Hl1 [Hr [Hr1 Hle]]]]]]].
    destruct (IH (S s) x1 Hl1) as [x' [r1' [r' [Hrun [Hr1' [Hr' Hle']]]]]].
    exists x', r, r'. rewrite for_each_passes, Hstep. cbn [bind].
    repeat split; try assumption.
    assert (r1' = r1) by congruence. lra.
Qed.

(** X11. For a frame with orthonormal columns and non-negative magnitudes,
    one per row, gs_phaseless returns for every num_iter, and the
    magnitude-fit residual of the returned estimate is at most the residual
    of the random initial guess. *)
Theorem final_residual_at_most_initial :
  forall {E : Numpy} (F : matrix) (b : list R) (num_iter : Z) (seed : option N) (os : N),
  wf_matrix F -> orthonormal_cols F -> length b = shape0 F ->
  Forall (fun c => 0 <= c) b ->
  exists (x' : list R) (r0 r' : R),
    gs_phaseless b F num_iter seed os = Ok x' /\
    err F b (randunif (shape1 F) (-1) 1 seed os) = Ok r0 /\
    err F b x' = Ok r' /\
    r' <= r0.
Proof.
  intros E F b num_iter seed os HF Horth Hb Hpos.
  apply (gs_loop_residual F b HF Horth Hb Hpos). apply randunif_length.
Qed.

Lemma final_residual_at_most_initial_witness :
  exists (x' : list R) (r0 r' : R),
    gs_phaseless (E:=counter_numpy) [3 / 5; 4 / 5] (array2 1 [[3 / 5]; [4 / 5]]) 200
      (Some 0%N) 0%N = Ok x' /\
    err (array2 1 [[3 / 5]; [4 / 5]]) [3 / 5; 4 / 5]
      (randunif (E:=counter_numpy) (shape1 (array2 1 [[3 / 5]; [4 / 5]])) (-1) 1
         (Some 0%N) 0%N) = Ok r0 /\
    err (array2 1 [[3 / 5]; [4 / 5]]) [3 / 5; 4 / 5] x' = Ok r' /\
    r' <= r0.
Proof.
  apply (final_residual_at_most_initial (E:=counter_numpy) (array2 1 [[3 / 5]; [4 / 5]])
           [3 / 5; 4 / 5] 200 (Some 0%N) 0%N).
  - apply wf_array2. repeat constructor.
  - exact pythagorean_frame_orthonormal.
  - reflexivity.
  - repeat constructor; lra.
Defined.

(** ** More on the result evaluator *)

Lemma norm_nonneg : forall v : list R, 0 <= norm v.
Proof. intros v; unfold norm. apply sqrt_pos. Qed.

Lemma norm_sqr : forall v : list R, norm v * norm v = dot v v.
Proof. intros v. rewrite norm_dot. apply sqrt_sqrt. apply dot_self_nonneg. Qed.

Lemma broadcast2_minus_vneg : forall x x0 : list R,
  broadcast2 Rminus x (vneg x0) = broadcast2 Rplus x x0.
Proof.
  intros x x0. unfold vneg. rewrite broadcast2_map_r.
  apply broadcast2_ext. intros; simpl; ring.
Qed.

Lemma evaluate_cases : forall (x x0 c : list R) (e : R),
  evaluate x x0 = Ok (c, e) ->
  exists d_pos d_neg,
    broadcast2 Rminus x x0 = Ok d_pos /\ broadcast2 Rplus x x0 = Ok d_neg /\
    ((norm d_neg < norm d_pos /\ c = vneg x0 /\ e = norm d_neg) \/
     (norm d_pos <= norm d_neg /\ c = x0 /\ e = norm d_pos)).
Proof.
  intros x x0 c e He. unfold evaluate in He.
  destruct (broadcast2 Rminus x x0) as [d_pos|ex]; cbn [bind] in He; [|discriminate].
  destruct (broadcast2 Rplus x x0) as [d_neg|ex]; cbn [bind] in He; [|discriminate].
  injection He as Hc He. exists d_pos, d_neg. split; [reflexivity|]. split; [reflexivity|].
  destruct (Rlt_dec (norm d_neg) (norm d_pos)) as [Hlt|Hge].
  - left. rewrite Rmin_right in He by lra. repeat split; congruence.
  - right. rewrite Rmin_left in He by lra. repeat split; try congruence. lra.
Qed.

(** X12. The error that the evaluator reports is the distance from the
    ground truth to the corrected estimate it returns; the corrected estimate
    is the given estimate or its negation, and the reported error is not
    negative and not larger than the distance to either of the two. *)
Theorem evaluate_error_attained :
  forall (x x0 c : list R) (e : R),
  evaluate x x0 = Ok (c, e) ->
  exists d d_pos d_neg,
    broadcast2 Rminus x c = Ok d /\ norm d = e /\
    (c = x0 \/ c = vneg x0) /\
    broadcast2 Rminus x x0 = Ok d_pos /\
    broadcast2 Rminus x (vneg x0) = Ok d_neg /\
    0 <= e /\ e <= norm d_pos /\ e <= norm d_neg.
Proof.
  intros x x0 c e He.
  destruct (evaluate_cases x x0 c e He) as [d_pos [d_neg [Hp [Hn Hcase]]]].
  rewrite <- broadcast2_minus_vneg in Hn.
  destruct Hcase as [[Hlt [-> ->]] | [Hle [-> ->]]].
  - exists d_neg, d_pos, d_neg. repeat split; try assumption; try lra.
    + right; reflexivity.
    + apply norm_nonneg.
  - exists d_pos, d_pos, d_neg. repeat split; try assumption; try lra.
    + left; reflexivity.
    + apply norm_nonneg.
Qed.

Lemma evaluate_error_attained_witness :
  exists d d_pos d_neg,
    broadcast2 Rminus [0] [1] = Ok d /\ norm d = 1 /\
    ([1] = [1] \/ [1] = vneg [1]) /\
    broadcast2 Rminus [0] [1] = Ok d_pos /\
    broadcast2 Rminus [0] (vneg [1]) = Ok d_neg /\
    0 <= 1 /\ 1 <= norm d_pos /\ 1 <= norm d_neg.
Proof.
  exact (evaluate_error_attained [0] [1] [1] 1 (proj1 evaluate_unit_tie)).
Defined.

(** X13. The evaluator is idempotent: evaluating the ground truth against
    the corrected estimate returns that estimate unchanged, with the same
    error. *)
Theorem evaluate_idempotent :
  forall (x x0 c : list R) (e : R),
  evaluate x x0 = Ok (c, e) -> evaluate x c = Ok (c, e).
Proof.
  intros x x0 c e He.
  destruct (evaluate_cases x x0 c e He) as [d_pos [d_neg [Hp [Hn Hcase]]]].
  destruct Hcase as [[Hlt [-> ->]] | [Hle [-> ->]]]; [|exact He].
  rewrite evaluate_vneg, Hn, Hp. cbn [bind].
  destruct (Rlt_dec (norm d_pos) (norm d_neg)) as [Hc|_]; [exfalso; lra|].
  rewrite Rmin_left by lra. reflexivity.
Qed.

Lemma evaluate_idempotent_witness : evaluate [0] [1] = Ok ([1], 1).
Proof.
  exact (evaluate_idempotent [0] [1] [1] 1 (proj1 evaluate_unit_tie)).
Defined.

Lemma double_zero_fixed_by_vneg : forall x : list R,
  dot (zip_with Rplus x x) (zip_with Rplus x x) = 0 -> vneg x = x.
Proof.
  induction x as [|a x IH]; [reflexivity|].
  cbn [zip_with]. rewrite dot_cons. intros H0.
  pose proof (dot_self_nonneg (zip_with Rplus x x)) as Hpos.
  assert (Ha : a = 0) by nra.
  assert (Hrest : dot (zip_with Rplus x x) (zip_with Rplus x x) = 0) by nra.
  unfold vneg in *. cbn [map]. rewrite (IH Hrest). subst a. simpl.
  rewrite Ropp_0. reflexivity.
Qed.

(** X14. An estimate equal to the ground truth up to sign is evaluated to
    the ground truth itself with error 0: evaluate(x, x) and evaluate(x, -x)
    both return (x, 0). *)
Theorem evaluate_exact_up_to_sign : forall x : list R,
  evaluate x x = Ok (x, 0) /\ evaluate x (vneg x) = Ok (x, 0).
Proof.
  intros x.
  assert (Hp : broadcast2 Rminus x x = Ok (zip_with Rminus x x))
    by (apply broadcast2_same_length; reflexivity).
  assert (Hn : broadcast2 Rplus x x = Ok (zip_with Rplus x x))
    by (apply broadcast2_same_length; reflexivity).
  pose proof (norm_nonneg (zip_with Rplus x x)) as Hpos.
  split.
  - unfold evaluate. rewrite Hp, Hn. cbn [bind]. rewrite norm_sub_same.
    destruct (Rlt_dec (norm (zip_with Rplus x x)) 0) as [Hc|_]; [exfalso; lra|].
    rewrite Rmin_left by lra. reflexivity.
  - rewrite evaluate_vneg, Hp, Hn. cbn [bind]. rewrite norm_sub_same.
    rewrite Rmin_right by lra.
    destruct (Rlt_dec 0 (norm (zip_with Rplus x x))) as [_|Hz].
    + rewrite vneg_vneg. reflexivity.
    + assert (H0 : norm (zip_with Rplus x x) * norm (zip_with Rplus x x) = 0) by nra.
      rewrite norm_sqr in H0. rewrite (double_zero_fixed_by_vneg x H0). reflexivity.
Qed.

Lemma dot_add_self : forall u v : list R,
  length u = length v ->
  dot (zip_with Rplus u v) (zip_with Rplus u v) = dot u u + 2 * dot u v + dot v v.
Proof.
  induction u as [|a u IH]; intros [|b v] Hl; try discriminate.
  - rewrite !dot_nil_l. ring.
  - injection Hl as Hl. cbn [zip_with]. rewrite !dot_cons, (IH v Hl). ring.
Qed.

Lemma evaluate_error_sqr : forall (x x0 c : list R) (e : R),
  evaluate x x0 = Ok (c, e) -> length x = length x0 ->
  e * e <= dot x x + dot x0 x0.
Proof.
  intros x x0 c e He Hl.
  destruct (evaluate_cases x x0 c e He) as [d_pos [d_neg [Hp [Hn Hcase]]]].
  rewrite broadcast2_same_length in Hp, Hn by exact Hl.
  injection Hp as <-. injection Hn as <-.
  pose proof (norm_sqr (zip_with Rminus x x0)) as Sp.
  pose proof (norm_sqr (zip_with Rplus x x0)) as Sn.
  rewrite (dot_sub_self x x0 Hl) in Sp. rewrite (dot_add_self x x0 Hl) in Sn.
  pose proof (norm_nonneg (zip_with Rminus x x0)) as Pp.
  pose proof (norm_nonneg (zip_with Rplus x x0)) as Pn.
  destruct Hcase as [[Hlt [_ ->]] | [Hle [_ ->]]]; nra.
Qed.

(** X15. For a ground truth and an estimate of the same length the reported
    error e satisfies e^2 <= |x|^2 + |x^|^2: resolving the sign never leaves
    an error larger than that of two orthogonal vectors. *)
Theorem evaluate_error_bound :
  forall (x x0 c : list R) (e : R),
  evaluate x x0 = Ok (c, e) -> length x = length x0 ->
  e * e <= norm x * norm x + norm x0 * norm x0.
Proof.
  intros x x0 c e He Hl. rewrite !norm_sqr. exact (evaluate_error_sqr x x0 c e He Hl).
Qed.

Lemma evaluate_error_bound_witness : 1 * 1 <= norm [0] * norm [0] + norm [1] * norm [1].
Proof.
  exact (evaluate_error_bound [0] [1] [1] 1 (proj1 evaluate_unit_tie) eq_refl).
Defined.

(** ** The frame dimension *)

(** The float product of line 41 is IEEE 754 binary64: [SFmul 53 1024], which
    shifts the exact product of the mantissas to the exponent of the format
    and rounds it to nearest, ties to even.  The lemmas below bound what this
    rounding returns, on the scale 2^K that makes every exponent
    non-negative. *)
Section FloatProduct.

Local Open Scope Z_scope.

Lemma iter_pos_iter : forall {A : Type} (f : A -> A) (p : positive) (x : A),
  SpecFloat.iter_pos f p x = Pos.iter f x p.
Proof.
  intros A f p; induction p as [p IH|p IH|]; intros x; simpl.
  - rewrite !IH, <- !Pos.iter_swap. reflexivity.
  - rewrite !IH. reflexivity.
  - reflexivity.
Qed.

Lemma shr_1_m : forall mrs, 0 <= shr_m mrs ->
  shr_m (shr_1 mrs) = shr_m mrs / 2 /\
  (shr_r (shr_1 mrs) = true -> shr_m mrs mod 2 = 1).
Proof.
  intros [m r s] Hm. cbn [shr_m] in Hm.
  destruct m as [|[p|p|]|p]; cbn [shr_1 shr_m shr_r]; try lia.
  - split; [reflexivity | discriminate].
  - rewrite Pos2Z.inj_xI. split; [|intros _]; Z.div_mod_to_equations; lia.
  - rewrite Pos2Z.inj_xO. split; [|discriminate]. Z.div_mod_to_equations; lia.
  - split; [|intros _]; reflexivity.
Qed.

Lemma shr_iter : forall (p : positive) (mrs : shr_record), 0 <= shr_m mrs ->
  shr_m (SpecFloat.iter_pos shr_1 p mrs) = shr_m mrs / 2 ^ Zpos p /\
  (shr_r (SpecFloat.iter_pos shr_1 p mrs) = true ->
   2 ^ Zpos p <= 2 * (shr_m mrs mod 2 ^ Zpos p)).
Proof.
  intros p mrs Hm. rewrite iter_pos_iter.
  induction p as [|p IH] using Pos.peano_ind.
  - simpl Pos.iter. destruct (shr_1_m mrs Hm) as [H1 H2].
    change (2 ^ 1) with 2. split; [exact H1|]. intros Hr. specialize (H2 Hr). lia.
  - rewrite Pos.iter_succ. destruct IH as [IHm _].
    assert (Hpos : 0 <= shr_m (Pos.iter shr_1 mrs p)).
    { rewrite IHm. apply Z.div_pos; [assumption | apply Z.pow_pos_nonneg; lia]. }
    destruct (shr_1_m _ Hpos) as [H1 H2].
    rewrite Pos2Z.inj_succ, Z.pow_succ_r by lia.
    assert (Hp : 0 < 2 ^ Zpos p) by (apply Z.pow_pos_nonneg; lia).
    split.
    + rewrite H1, IHm, Z.div_div by lia. f_equal. lia.
    + intros Hr. specialize (H2 Hr). rewrite IHm in H2.
      rewrite (Z.mul_comm 2 (2 ^ Zpos p)), Z.rem_mul_r by lia.
      rewrite H2. pose proof (Z.mod_pos_bound (shr_m mrs) (2 ^ Zpos p) Hp). lia.
Qed.

Lemma digits2_pos_bounds : forall m : positive,
  2 ^ (Zpos (digits2_pos m) - 1) <= Zpos m < 2 ^ Zpos (digits2_pos m).
Proof.
  induction m as [m IH|m IH|]; simpl digits2_pos.
  - rewrite Pos2Z.inj_succ. replace (Z.succ (Zpos (digits2_pos m)) - 1)
      with (Z.succ (Zpos (digits2_pos m) - 1)) by lia.
    rewrite !Z.pow_succ_r by lia. lia.
  - rewrite Pos2Z.inj_succ. replace (Z.succ (Zpos (digits2_pos m)) - 1)
      with (Z.succ (Zpos (digits2_pos m) - 1)) by lia.
    rewrite !Z.pow_succ_r by lia. lia.
  - split; [apply Z.leb_le | apply Z.ltb_lt]; reflexivity.
Qed.

Lemma round_nearest_even_bounds : forall mrs : shr_record,
  shr_m mrs <= round_nearest_even (shr_m mrs) (loc_of_shr_record mrs) <= shr_m mrs + 1 /\
  (round_nearest_even (shr_m mrs) (loc_of_shr_record mrs) <> shr_m mrs -> shr_r mrs = true).
Proof.
  intros [m [|] [|]]; cbn [round_nearest_even loc_of_shr_record shr_m shr_r];
    try destruct (Z.even m); (split; [lia | congruence]).
Qed.

Lemma fexp64 : forall x, fexp 53 1024 x = Z.max (x - 53) (-1074).
Proof. reflexivity. Qed.

Lemma shr_m_spec : forall (mrs : shr_record) (e n : Z), 0 <= shr_m mrs ->
  snd (shr mrs e n) = e + Z.max 0 n /\
  shr_m (fst (shr mrs e n)) = shr_m mrs / 2 ^ Z.max 0 n /\
  (shr_r (fst (shr mrs e n)) = true ->
   shr_r mrs = true \/ (0 < n /\ 2 ^ n <= 2 * (shr_m mrs mod 2 ^ n))).
Proof.
  intros mrs e n Hm. destruct n as [|p|p]; cbn [shr fst snd].
  - rewrite Z.max_id, Z.add_0_r, Z.pow_0_r, Z.div_1_r. repeat split. intros H; left; exact H.
  - rewrite Z.max_r by lia. destruct (shr_iter p mrs Hm) as [H1 H2].
    repeat split; [exact H1|]. intros H; right; split; [lia | exact (H2 H)].
  - rewrite Z.max_l by lia. rewrite Z.add_0_r, Z.pow_0_r, Z.div_1_r. repeat split.
    intros H; left; exact H.
Qed.

Lemma pow2_pos : forall a : Z, 0 <= a -> 0 < 2 ^ a.
Proof. intros a Ha. apply Z.pow_pos_nonneg; lia. Qed.

(** Shifting a mantissa to the exponent of its format keeps the float above
    every integer of at most 53 bits that it was above. *)
Lemma shift_lower : forall (m dm e K N : Z),
  2 ^ (dm - 1) <= m < 2 ^ dm -> 1 <= dm -> 0 <= K -> - K <= e -> 0 <= N <= 2 ^ 53 ->
  N * 2 ^ K <= m * 2 ^ (e + K) ->
  N * 2 ^ K <=
  (m / 2 ^ Z.max 0 (Z.max (dm + e - 53) (-1074) - e)) *
  2 ^ (e + Z.max 0 (Z.max (dm + e - 53) (-1074) - e) + K).
Proof.
  intros m dm e K N Hm Hdm HK He HN Hle.
  set (e' := Z.max (dm + e - 53) (-1074)).
  destruct (Z.le_gt_cases (e' - e) 0) as [Hp|Hp].
  - rewrite Z.max_l by lia. rewrite Z.pow_0_r, Z.div_1_r, Z.add_0_r. exact Hle.
  - rewrite Z.max_r by lia. replace (e + (e' - e) + K) with (e' + K) by lia.
    set (p := e' - e) in *.
    pose proof (pow2_pos (e + K) ltac:(lia)) as HA.
    pose proof (pow2_pos p ltac:(lia)) as HP.
    pose proof (pow2_pos K HK) as HKp.
    destruct (Z.le_gt_cases e' 0) as [Hneg|Hposi].
    + pose proof (pow2_pos (- e') ltac:(lia)) as HD.
      assert (E1 : 2 ^ K = 2 ^ (- e') * (2 ^ p * 2 ^ (e + K))).
      { rewrite <- !Z.pow_add_r by lia. f_equal. unfold p. lia. }
      assert (E2 : 2 ^ (e' + K) = 2 ^ p * 2 ^ (e + K)).
      { rewrite <- !Z.pow_add_r by lia. f_equal. unfold p. lia. }
      rewrite E1 in *. rewrite E2.
      set (A := 2 ^ (e + K)) in *. set (P := 2 ^ p) in *. set (D := 2 ^ (- e')) in *.
      assert (H1 : N * D * P <= m) by nia.
      assert (H2 : N * D <= m / P) by (apply Z.div_le_lower_bound; nia).
      nia.
    + assert (He' : e' = dm + e - 53) by (unfold e' in *; lia).
      assert (Hpe : p = dm - 53) by (unfold p; lia).
      assert (E1 : 2 ^ (dm - 1) = 2 ^ p * 2 ^ 52).
      { rewrite <- Z.pow_add_r by lia. f_equal. lia. }
      assert (H2 : 2 ^ 52 <= m / 2 ^ p) by (apply Z.div_le_lower_bound; lia).
      assert (E2 : 2 ^ (e' + K) = 2 ^ e' * 2 ^ K) by (apply Z.pow_add_r; lia).
      assert (H3 : 2 ^ 1 <= 2 ^ e') by (apply Z.pow_le_mono_r; lia).
      rewrite E2. change (2 ^ 1) with 2 in H3.
      set (X := m / 2 ^ p) in *. set (Y := 2 ^ e') in *. set (W := 2 ^ K) in *.
      assert (2 ^ 53 = 2 ^ 52 * 2) by reflexivity.
      nia.
Qed.

(** Shifting never increases the float. *)
Lemma shift_upper : forall (m e q K : Z),
  0 <= m -> 0 <= q -> 0 <= e + K ->
  (m / 2 ^ q) * 2 ^ (e + q + K) <= m * 2 ^ (e + K).
Proof.
  intros m e q K Hm Hq HK.
  replace (e + q + K) with (q + (e + K)) by lia.
  rewrite Z.pow_add_r by lia.
  pose proof (pow2_pos q Hq) as HQ. pose proof (pow2_pos (e + K) HK) as HA.
  pose proof (Z.mul_div_le m (2 ^ q) HQ).
  set (Q := 2 ^ q) in *. set (A := 2 ^ (e + K)) in *. nia.
Qed.

(** Rounding up does not reach an integer N of at most 53 bits when the
    exact value is at most N * (1 - 2^-53). *)
Lemma round_upper : forall (M d E K N : Z),
  2 ^ (d - 1) <= M < 2 ^ d -> 1 <= d -> 0 <= K -> - K <= E -> 1 <= N <= 2 ^ 53 ->
  2 ^ 53 * (M * 2 ^ (E + K)) <= N * (2 ^ 53 - 1) * 2 ^ K ->
  0 < Z.max (d + E - 53) (-1074) - E ->
  2 ^ (Z.max (d + E - 53) (-1074) - E) <=
    2 * (M mod 2 ^ (Z.max (d + E - 53) (-1074) - E)) ->
  (M / 2 ^ (Z.max (d + E - 53) (-1074) - E) + 1) *
    2 ^ (E + (Z.max (d + E - 53) (-1074) - E) + K) < N * 2 ^ K.
Proof.
  intros M d E K N HM Hd HK HE HN Hle.
  set (e1 := Z.max (d + E - 53) (-1074)). set (p := e1 - E). intros Hp Hr.
  pose proof (pow2_pos (E + K) ltac:(lia)) as HA.
  pose proof (pow2_pos p ltac:(lia)) as HP.
  pose proof (pow2_pos K HK) as HW.
  assert (H0 : M * 2 ^ (E + K) < N * 2 ^ K) by nia.
  assert (He1 : e1 <= 0).
  { assert (Hlt : 2 ^ (d - 1 + (E + K)) < 2 ^ (53 + K)).
    { rewrite (Z.pow_add_r 2 (d - 1) (E + K)), (Z.pow_add_r 2 53 K) by lia.
      apply Z.le_lt_trans with (M * 2 ^ (E + K));
        [apply Z.mul_le_mono_nonneg_r; lia|].
      apply Z.lt_le_trans with (N * 2 ^ K); [exact H0|].
      apply Z.mul_le_mono_nonneg_r; lia. }
    apply Z.pow_lt_mono_r_iff in Hlt; [|lia|lia]. unfold e1. lia. }
  pose proof (pow2_pos (- e1) ltac:(lia)) as HD.
  assert (E1 : 2 ^ K = 2 ^ (- e1) * (2 ^ p * 2 ^ (E + K))).
  { rewrite <- !Z.pow_add_r by lia. f_equal. unfold p. lia. }
  assert (E2 : 2 ^ (E + p + K) = 2 ^ p * 2 ^ (E + K)).
  { rewrite <- !Z.pow_add_r by lia. f_equal. lia. }
  rewrite E2. rewrite E1 in *.
  pose proof (Z.div_mod M (2 ^ p) ltac:(lia)) as Hdm.
  pose proof (Z.mod_pos_bound M (2 ^ p) HP) as Hrb.
  assert (Hnorm : e1 = d + E - 53 -> 2 ^ 52 <= M / 2 ^ p).
  { intros He. apply Z.div_le_lower_bound; [lia|].
    rewrite <- Z.pow_add_r by lia. replace (p + 52) with (d - 1) by (unfold p; lia).
    lia. }
  assert (Hsub : e1 = -1074 -> 2 ^ 53 <= 2 ^ (- e1)).
  { intros He. apply Z.pow_le_mono_r; lia. }
  assert (Hcase : e1 = d + E - 53 \/ e1 = -1074) by (unfold e1; lia).
  set (A := 2 ^ (E + K)) in *. set (P := 2 ^ p) in *. set (D := 2 ^ (- e1)) in *.
  set (m1 := M / P) in *. set (r := M mod P) in *.
  assert (T : 2 ^ 53 = 2 * 2 ^ 52) by reflexivity.
  set (T52 := 2 ^ 52) in *. rewrite T in *.
  assert (H1 : M < N * D * P) by nia.
  assert (H2 : 2 * T52 * M <= (2 * T52 - 1) * (N * D) * P) by nia.
  assert (H3 : m1 < N * D) by nia.
  assert (H4 : m1 + 2 <= N * D).
  { destruct (Z.le_gt_cases (m1 + 2) (N * D)) as [H|H]; [exact H|exfalso].
    assert (Hm1 : m1 = N * D - 1) by lia.
    assert (H5 : 2 * T52 * (2 * P * (N * D - 1) + P) <= 2 * ((2 * T52 - 1) * (N * D) * P)) by nia.
    assert (H6 : 2 * (N * D) <= 2 * T52) by nia.
    destruct Hcase as [Hc|Hc]; [specialize (Hnorm Hc); lia | specialize (Hsub Hc); nia]. }
  nia.
Qed.

Lemma round_upper_le : forall (M d E K N : Z),
  2 ^ (d - 1) <= M < 2 ^ d -> 1 <= d -> 0 <= K -> - K <= E -> 0 <= N < 2 ^ 53 ->
  M * 2 ^ (E + K) <= N * 2 ^ K ->
  0 < Z.max (d + E - 53) (-1074) - E ->
  2 ^ (Z.max (d + E - 53) (-1074) - E) <=
    2 * (M mod 2 ^ (Z.max (d + E - 53) (-1074) - E)) ->
  (M / 2 ^ (Z.max (d + E - 53) (-1074) - E) + 1) *
    2 ^ (E + (Z.max (d + E - 53) (-1074) - E) + K) <= N * 2 ^ K.
Proof.
  intros M d E K N HM Hd HK HE HN Hle.
  set (e1 := Z.max (d + E - 53) (-1074)). set (p := e1 - E). intros Hp Hr.
  pose proof (pow2_pos (E + K) ltac:(lia)) as HA.
  pose proof (pow2_pos p ltac:(lia)) as HP.
  pose proof (pow2_pos K HK) as HW.
  assert (He1 : e1 <= 0).
  { assert (Hlt : 2 ^ (d - 1 + (E + K)) < 2 ^ (53 + K)).
    { rewrite (Z.pow_add_r 2 (d - 1) (E + K)), (Z.pow_add_r 2 53 K) by lia.
      apply Z.le_lt_trans with (M * 2 ^ (E + K));
        [apply Z.mul_le_mono_nonneg_r; lia|].
      apply Z.le_lt_trans with (N * 2 ^ K); [exact Hle|].
      apply Z.mul_lt_mono_pos_r; lia. }
    apply Z.pow_lt_mono_r_iff in Hlt; [|lia|lia]. unfold e1. lia. }
  pose proof (pow2_pos (- e1) ltac:(lia)) as HD.
  assert (E1 : 2 ^ K = 2 ^ (- e1) * (2 ^ p * 2 ^ (E + K))).
  { rewrite <- !Z.pow_add_r by lia. f_equal. unfold p. lia. }
  assert (E2 : 2 ^ (E + p + K) = 2 ^ p * 2 ^ (E + K)).
  { rewrite <- !Z.pow_add_r by lia. f_equal. lia. }
  rewrite E2. rewrite E1 in *.
  pose proof (Z.div_mod M (2 ^ p) ltac:(lia)) as Hdm.
  pose proof (Z.mod_pos_bound M (2 ^ p) HP) as Hrb.
  set (A := 2 ^ (E + K)) in *. set (P := 2 ^ p) in *. set (D := 2 ^ (- e1)) in *.
  set (m1 := M / P) in *. set (r := M mod P) in *.
  assert (H1 : M <= N * D * P) by nia.
  assert (H3 : m1 + 1 <= N * D) by nia.
  nia.
Qed.

(** What [binary_round_aux] returns for a positive exact mantissa: a
    mantissa m3 and an exponent e3, with the two bounds the frame dimension
    needs (the scale 2^K makes every exponent non-negative). *)
Lemma binary_round_aux_spec : forall (s : bool) (M : positive) (E : Z),
  exists (m3 e3 : Z),
    binary_round_aux 53 1024 s (Zpos M) E loc_Exact =
      match m3 with
      | Z0 => S754_zero s
      | Zpos m => if e3 <=? 971 then S754_finite s m e3 else S754_infinity s
      | Zneg _ => S754_nan
      end /\
    0 <= m3 /\ E <= e3 /\
    (forall N K, 0 <= K -> - K <= E -> 0 <= N <= 2 ^ 53 ->
       N * 2 ^ K <= Zpos M * 2 ^ (E + K) -> N * 2 ^ K <= m3 * 2 ^ (e3 + K)) /\
    (forall N K, 0 <= K -> - K <= E -> 1 <= N <= 2 ^ 53 ->
       2 ^ 53 * (Zpos M * 2 ^ (E + K)) <= N * (2 ^ 53 - 1) * 2 ^ K ->
       m3 * 2 ^ (e3 + K) < N * 2 ^ K) /\
    (forall N K, 0 <= K -> - K <= E -> 0 <= N < 2 ^ 53 ->
       Zpos M * 2 ^ (E + K) <= N * 2 ^ K -> m3 * 2 ^ (e3 + K) <= N * 2 ^ K).
Proof.
  intros s M E. unfold binary_round_aux, shr_fexp. cbn [Zdigits2 shr_record_of_loc].
  pose proof (digits2_pos_bounds M) as HdM.
  set (d := Zpos (digits2_pos M)) in *.
  assert (Hd : 1 <= d) by (unfold d; lia).
  rewrite (fexp64 (d + E)).
  set (n1 := Z.max (d + E - 53) (-1074) - E).
  destruct (shr_m_spec (Build_shr_record (Zpos M) false false) E n1 ltac:(cbn; lia))
    as [Hs1 [Hs2 Hs3]].
  destruct (shr (Build_shr_record (Zpos M) false false) E n1) as [mrs1 e1].
  cbn [fst snd shr_m shr_r] in Hs1, Hs2, Hs3.
  destruct (round_nearest_even_bounds mrs1) as [Hr1 Hr2].
  set (m2 := round_nearest_even (shr_m mrs1) (loc_of_shr_record mrs1)) in *.
  assert (Hm1 : 0 <= shr_m mrs1).
  { rewrite Hs2. apply Z.div_pos; [lia | apply pow2_pos; lia]. }
  rewrite (fexp64 (Zdigits2 m2 + e1)).
  set (n2 := Z.max (Zdigits2 m2 + e1 - 53) (-1074) - e1).
  destruct (shr_m_spec (Build_shr_record m2 false false) e1 n2 ltac:(cbn; lia))
    as [Ht1 [Ht2 _]].
  destruct (shr (Build_shr_record m2 false false) e1 n2) as [mrs2 e2].
  cbn [fst snd shr_m shr_r] in Ht1, Ht2.
  exists (shr_m mrs2), e2.
  split; [reflexivity|].
  split; [rewrite Ht2; apply Z.div_pos; [lia | apply pow2_pos; lia]|].
  split; [lia|].
  split; [|split].
  - intros N K HK HE HN Hle.
    pose proof (shift_lower (Zpos M) d E K N HdM Hd HK HE HN Hle) as H1.
    fold n1 in H1. rewrite <- Hs2, <- Hs1 in H1.
    assert (H2 : N * 2 ^ K <= m2 * 2 ^ (e1 + K)).
    { pose proof (pow2_pos (e1 + K) ltac:(lia)). nia. }
    rewrite Ht2, Ht1. unfold n2.
    destruct m2 as [|q|q] eqn:Hq; [| |lia].
    + rewrite Z.div_0_l by (pose proof (pow2_pos (Z.max 0 n2) ltac:(lia)); unfold n2 in *; lia).
      lia.
    + cbn [Zdigits2].
      apply (shift_lower (Zpos q) (Zpos (digits2_pos q)) e1 K N);
        [apply digits2_pos_bounds | lia | lia | lia | lia | exact H2].
  - intros N K HK HE HN Hle.
    pose proof (pow2_pos (E + K) ltac:(lia)) as HA.
    pose proof (pow2_pos K HK) as HW.
    assert (H0 : Zpos M * 2 ^ (E + K) < N * 2 ^ K) by nia.
    apply Z.le_lt_trans with (m2 * 2 ^ (e1 + K)).
    { rewrite Ht2, Ht1. apply shift_upper; lia. }
    destruct (Z.eq_dec m2 (shr_m mrs1)) as [Heq|Hne].
    + rewrite Heq, Hs2, Hs1.
      apply Z.le_lt_trans with (Zpos M * 2 ^ (E + K)); [|exact H0].
      apply shift_upper; lia.
    + destruct (Hs3 (Hr2 Hne)) as [Hf|[Hn1 Hrem]]; [discriminate|].
      assert (Hm2 : m2 = shr_m mrs1 + 1) by lia.
      rewrite Hm2, Hs2, Hs1. rewrite Z.max_r by lia.
      apply (round_upper (Zpos M) d E K N); assumption.
  - intros N K HK HE HN Hle.
    apply Z.le_trans with (m2 * 2 ^ (e1 + K)).
    { rewrite Ht2, Ht1. apply shift_upper; lia. }
    destruct (Z.eq_dec m2 (shr_m mrs1)) as [Heq|Hne].
    + rewrite Heq, Hs2, Hs1.
      apply Z.le_trans with (Zpos M * 2 ^ (E + K)); [|exact Hle].
      apply shift_upper; lia.
    + destruct (Hs3 (Hr2 Hne)) as [Hf|[Hn1 Hrem]]; [discriminate|].
      assert (Hm2 : m2 = shr_m mrs1 + 1) by lia.
      rewrite Hm2, Hs2, Hs1. rewrite Z.max_r by lia.
      apply (round_upper_le (Zpos M) d E K N); assumption.
Qed.

Lemma iter_xO_value : forall (m k : positive),
  Zpos (Pos.iter xO m k) = Zpos m * 2 ^ Zpos k.
Proof.
  intros m k; induction k as [|k IH] using Pos.peano_ind.
  - simpl Pos.iter. rewrite Pos2Z.inj_xO. change (2 ^ 1) with 2. lia.
  - rewrite Pos.iter_succ, Pos2Z.inj_xO, IH, Pos2Z.inj_succ, Z.pow_succ_r by lia. lia.
Qed.

(** An int of at most 53 bits converts to a float without rounding. *)
Lemma float_of_int_exact : forall n : Z, 1 <= n <= 2 ^ 53 ->
  exists (mn : positive) (en : Z),
    float_of_int n = Ok (S754_finite false mn en) /\
    - 52 <= en /\ Zpos mn * 2 ^ (en + 52) = n * 2 ^ 52.
Proof.
  intros n Hn.
  destruct (Z.eq_dec n (2 ^ 53)) as [->|Hne].
  { exists 4503599627370496%positive, 1.
    split; [vm_compute; reflexivity|]. split; [lia | reflexivity]. }
  destruct n as [|p|p]; try lia.
  unfold float_of_int, float64, binary_normalize, binary_round.
  pose proof (digits2_pos_bounds p) as Hd.
  set (d := Zpos (digits2_pos p)) in *.
  assert (Hd53 : d <= 53).
  { destruct (Z.le_gt_cases d 53) as [H|H]; [exact H|exfalso].
    assert (2 ^ 53 <= 2 ^ (d - 1)) by (apply Z.pow_le_mono_r; lia). lia. }
  rewrite fexp64.
  assert (Hal : exists (mz : positive) (ez : Z),
            shl_align p 0 (Z.max (d + 0 - 53) (-1074)) = (mz, ez) /\
            - 52 <= ez <= 0 /\ Zpos mz * 2 ^ (ez + 52) = Zpos p * 2 ^ 52).
  { unfold shl_align. rewrite Z.max_l by lia.
    destruct (d + 0 - 53 - 0) as [|k|k] eqn:Hk.
    - exists p, 0. repeat split; lia.
    - lia.
    - exists (Pos.iter xO p k), (d + 0 - 53). split; [reflexivity|]. split; [lia|].
      rewrite iter_xO_value, <- Z.mul_assoc, <- Z.pow_add_r by lia.
      do 2 f_equal. lia. }
  destruct Hal as [mz [ez [-> [Hez Hval]]]].
  destruct (binary_round_aux_spec false mz ez) as [m3 [e3 [Heq [Hm3 [He3 [HL [_ HU]]]]]]].
  rewrite Heq.
  assert (H1 : Zpos p * 2 ^ 52 <= m3 * 2 ^ (e3 + 52)) by (apply HL; lia).
  assert (H2 : m3 * 2 ^ (e3 + 52) <= Zpos p * 2 ^ 52) by (apply HU; lia).
  destruct m3 as [|q|q]; [lia| |lia].
  assert (He53 : e3 < 53).
  { assert (Hlt : 2 ^ (e3 + 52) < 2 ^ (53 + 52)).
    { pose proof (pow2_pos (e3 + 52) ltac:(lia)).
      rewrite (Z.pow_add_r 2 53 52) by lia. nia. }
    apply Z.pow_lt_mono_r_iff in Hlt; lia. }
  destruct (Z.leb_spec e3 971) as [_|Hgt]; [|lia].
  exists q, e3. repeat split; lia.
Qed.

(** [int()] of a positive float, on the scale 2^K. *)
Lemma int_of_finite : forall (q : positive) (e K : Z), 0 <= K -> - K <= e ->
  int_of_Q (SF2Q (S754_finite false q e)) = (Zpos q * 2 ^ (e + K)) / 2 ^ K.
Proof.
  intros q e K HK He. unfold SF2Q, int_of_Q, cond_Zopp.
  pose proof (pow2_pos K HK) as HW.
  destruct (Z.leb_spec 0 e) as [Hpos|Hneg]; cbn [Qnum Qden inject_Z].
  - rewrite Z.quot_1_r, Z.pow_add_r, Z.mul_assoc, Z.div_mul by lia. reflexivity.
  - rewrite Pos2Z.inj_pow, Z2Pos.id by lia.
    pose proof (pow2_pos (- e) ltac:(lia)) as HD.
    pose proof (pow2_pos (e + K) ltac:(lia)) as HA.
    rewrite Z.quot_div_nonneg by lia.
    replace (2 ^ K) with (2 ^ (- e) * 2 ^ (e + K))
      by (rewrite <- Z.pow_add_r by lia; f_equal; lia).
    rewrite Z.div_mul_cancel_r by lia. reflexivity.
Qed.

Lemma int_of_negative : forall (s : bool) (q : positive) (e : Z),
  int_of_Q (SF2Q (S754_finite true q e)) <= 0.
Proof.
  intros _ q e. unfold SF2Q, int_of_Q, cond_Zopp.
  destruct (Z.leb_spec 0 e) as [Hpos|Hneg]; cbn [Qnum Qden inject_Z].
  - rewrite Z.quot_1_r. pose proof (pow2_pos e Hpos). nia.
  - rewrite Z.quot_opp_l by lia.
    assert (0 <= Zpos q ÷ Zpos (2 ^ Z.to_pos (- e))) by (apply Z.quot_pos; lia).
    lia.
Qed.

(** A positive float of the format against 1, on the scale 2^1074. *)
Lemma finite_ge_1 : forall (q : positive) (e : Z), -1074 <= e ->
  (1 <= SF2Q (S754_finite false q e))%Q <-> 2 ^ 1074 <= Zpos q * 2 ^ (e + 1074).
Proof.
  intros q e He. unfold SF2Q, cond_Zopp, Qle.
  pose proof (pow2_pos (e + 1074) ltac:(lia)) as HA.
  destruct (Z.leb_spec 0 e) as [Hpos|Hneg]; cbn [Qnum Qden inject_Z].
  - rewrite Z.pow_add_r by lia. pose proof (pow2_pos e Hpos).
    set (B := 2 ^ e) in *. set (W := 2 ^ 1074) in *.
    assert (0 < W) by (apply pow2_pos; lia). split; intros; nia.
  - rewrite Pos2Z.inj_pow, Z2Pos.id by lia.
    pose proof (pow2_pos (- e) ltac:(lia)) as HD.
    replace (2 ^ 1074) with (2 ^ (- e) * 2 ^ (e + 1074))
      by (rewrite <- Z.pow_add_r by lia; f_equal; lia).
    set (D := 2 ^ (- e)) in *. set (A := 2 ^ (e + 1074)) in *.
    split; intros; nia.
Qed.

(** A float of the format below 1 is at most 1 - 2^-53. *)
Lemma finite_lt_1 : forall (q : positive) (e : Z),
  valid_binary 53 1024 (S754_finite false q e) = true ->
  -1074 <= e /\
  (Zpos q * 2 ^ (e + 1074) < 2 ^ 1074 ->
   2 ^ 53 * (Zpos q * 2 ^ (e + 1074)) <= (2 ^ 53 - 1) * 2 ^ 1074).
Proof.
  intros q e Hv. unfold valid_binary, bounded, canonical_mantissa in Hv.
  apply andb_true_iff in Hv. destruct Hv as [Hc _].
  apply Z.eqb_eq in Hc. rewrite fexp64 in Hc.
  pose proof (digits2_pos_bounds q) as Hd.
  set (d := Zpos (digits2_pos q)) in *.
  assert (Hd53 : d <= 53) by lia.
  assert (He : -1074 <= e) by lia.
  split; [exact He|]. intros Hlt.
  assert (Hq : Zpos q < 2 ^ 53).
  { apply Z.lt_le_trans with (2 ^ d); [lia | apply Z.pow_le_mono_r; lia]. }
  set (t := e + 1074) in *.
  pose proof (pow2_pos t ltac:(lia)) as HB.
  destruct (Z.le_gt_cases 1021 t) as [Hbig|Hsmall].
  - assert (Ht : t < 1074).
    { destruct (Z.le_gt_cases 1074 t) as [H|H]; [exfalso|exact H].
      assert (2 ^ 1074 <= 2 ^ t) by (apply Z.pow_le_mono_r; lia). nia. }
    assert (EG : 2 ^ 1074 = 2 ^ (1074 - t) * 2 ^ t).
    { rewrite <- Z.pow_add_r by lia. f_equal. lia. }
    assert (HG : 2 ^ (1074 - t) <= 2 ^ 53) by (apply Z.pow_le_mono_r; lia).
    pose proof (pow2_pos (1074 - t) ltac:(lia)) as HGp.
    rewrite EG in *.
    set (G := 2 ^ (1074 - t)) in *. set (B := 2 ^ t) in *.
    assert (T : 2 ^ 53 = 2 * 2 ^ 52) by reflexivity.
    set (T52 := 2 ^ 52) in *. rewrite T in *.
    assert (Hq1 : Zpos q <= G - 1) by nia.
    nia.
  - assert (HB2 : 2 ^ t <= 2 ^ 1020) by (apply Z.pow_le_mono_r; lia).
    assert (EW : 2 ^ 1074 = 2 ^ 54 * 2 ^ 1020) by (rewrite <- Z.pow_add_r by lia; reflexivity).
    rewrite EW.
    set (B := 2 ^ t) in *. set (C := 2 ^ 1020) in *.
    assert (T : 2 ^ 53 = 2 * 2 ^ 52) by reflexivity.
    assert (T' : 2 ^ 54 = 4 * 2 ^ 52) by reflexivity.
    assert (T0 : 0 < 2 ^ 52) by (apply pow2_pos; lia).
    set (T52 := 2 ^ 52) in *. rewrite T, T' in *.
    assert (Zpos q * B <= 2 * T52 * C) by nia.
    nia.
Qed.

Lemma negative_not_ge_1 : forall (q : positive) (e : Z),
  ~ (1 <= SF2Q (S754_finite true q e))%Q.
Proof.
  intros q e. unfold SF2Q, cond_Zopp, Qle.
  destruct (Z.leb_spec 0 e) as [Hpos|Hneg]; cbn [Qnum Qden inject_Z].
  - pose proof (pow2_pos e Hpos). nia.
  - lia.
Qed.

Lemma py_int_finite : forall (s : bool) (q : positive) (e : Z),
  py_int (PyFloat (S754_finite s q e)) = Ok (int_of_Q (SF2Q (S754_finite s q e))).
Proof. reflexivity. Qed.

Lemma py_int_zero : forall s : bool, py_int (PyFloat (S754_zero s)) = Ok 0.
Proof. reflexivity. Qed.

Lemma frame_dim_tall_iff : forall (n : Z) (f : spec_float) (m : Z),
  1 <= n <= 2 ^ 53 -> valid_binary 53 1024 f = true ->
  frame_dim n (PyFloat f) None = Ok m ->
  (n <= m <-> (1 <= SF2Q f)%Q).
Proof.
  intros n f m Hn Hv Hfd.
  destruct (float_of_int_exact n Hn) as [mn [en [Hx [Hen Hval]]]].
  unfold frame_dim, py_mul in Hfd. rewrite Hx in Hfd. cbn [bind] in Hfd.
  destruct f as [s|s| |s q e]; cbn [SFmul] in Hfd; try discriminate.
  - rewrite py_int_zero in Hfd. injection Hfd as <-.
    unfold SF2Q, Qle. cbn [Qnum Qden]. split; intros; lia.
  - destruct (binary_round_aux_spec (xorb false s) (mn * q) (en + e))
      as [m3 [e3 [Heq [Hm3 [He3 [HL [HU _]]]]]]].
    rewrite Heq in Hfd. clear Heq.
    destruct s; cbn [xorb] in Hfd.
    + assert (Hm : m <= 0).
      { destruct m3 as [|q3|q3].
        - rewrite py_int_zero in Hfd. injection Hfd as <-. lia.
        - destruct (e3 <=? 971); [|discriminate].
          rewrite py_int_finite in Hfd.
          replace m with (int_of_Q (SF2Q (S754_finite true q3 e3))) by congruence.
          apply (int_of_negative true).
        - discriminate. }
      split; [intros; lia | intros H; exfalso; exact (negative_not_ge_1 q e H)].
    + destruct (finite_lt_1 q e Hv) as [He Hlt1].
      pose proof (finite_ge_1 q e He) as Hge.
      assert (EM : Zpos (mn * q) * 2 ^ (en + e + 1126) =
                   (n * 2 ^ 52) * (Zpos q * 2 ^ (e + 1074))).
      { rewrite <- Hval, Pos2Z.inj_mul.
        replace (en + e + 1126) with ((en + 52) + (e + 1074)) by lia.
        rewrite Z.pow_add_r by lia. ring. }
      assert (EW : 2 ^ 1126 = 2 ^ 52 * 2 ^ 1074) by reflexivity.
      assert (HT : 0 < 2 ^ 52) by (apply pow2_pos; lia).
      assert (HW : 0 < 2 ^ 1126) by (apply pow2_pos; lia).
      assert (Hint : forall q3 : positive, m3 = Zpos q3 ->
                int_of_Q (SF2Q (S754_finite false q3 e3)) = (m3 * 2 ^ (e3 + 1126)) / 2 ^ 1126).
      { intros q3 ->. apply int_of_finite; lia. }
      destruct (Z.le_gt_cases (2 ^ 1074) (Zpos q * 2 ^ (e + 1074))) as [Hbig|Hsmall].
      * assert (H1 : n * 2 ^ 1126 <= m3 * 2 ^ (e3 + 1126)).
        { apply HL; [lia | lia | lia |]. rewrite EM, EW.
          set (Y := Zpos q * 2 ^ (e + 1074)) in *. set (W := 2 ^ 1074) in *.
          set (T := 2 ^ 52) in *. nia. }
        destruct m3 as [|q3|q3]; [lia| |lia].
        destruct (e3 <=? 971); [|discriminate].
        rewrite py_int_finite in Hfd.
        replace m with (int_of_Q (SF2Q (S754_finite false q3 e3))) by congruence.
        rewrite (Hint q3 eq_refl).
        split; [intros _; apply Hge; exact Hbig|]. intros _.
        apply Z.div_le_lower_bound; lia.
      * assert (H1 : m3 * 2 ^ (e3 + 1126) < n * 2 ^ 1126).
        { apply HU; [lia | lia | lia |]. rewrite EM, EW.
          specialize (Hlt1 Hsmall).
          set (Y := Zpos q * 2 ^ (e + 1074)) in *. set (W := 2 ^ 1074) in *.
          set (T := 2 ^ 52) in *.
          assert (T53 : 2 ^ 53 = 2 * T) by reflexivity. rewrite T53 in *.
          nia. }
        assert (Hm : m < n).
        { destruct m3 as [|q3|q3].
          - rewrite py_int_zero in Hfd. injection Hfd as <-. lia.
          - destruct (e3 <=? 971); [|discriminate].
            rewrite py_int_finite in Hfd.
            replace m with (int_of_Q (SF2Q (S754_finite false q3 e3))) by congruence.
            rewrite (Hint q3 eq_refl).
            apply Z.div_lt_upper_bound; lia.
          - discriminate. }
        split; [intros; lia|]. intros H. apply Hge in H. lia.
Qed.

End FloatProduct.

(** X16. For n >= 1 and no explicit frame dimension: an int redundancy k
    gives m = n*k exactly, so m >= n exactly when k >= 1; and for n of at
    most 53 bits (n <= 2^53) and a float redundancy r, whenever
    m = int(n*r) is returned, m >= n exactly when r >= 1, the rounding of
    the float product notwithstanding.  The bound on n cannot be dropped:
    n = 2^53 + 1 and r = 1.0 give m = 2^53 < n. *)
Theorem tall_frame_iff_redundancy :
  forall n : Z,
  (1 <= n)%Z ->
  (forall k : Z,
     frame_dim n (PyInt k) None = Ok (n * k)%Z /\
     ((n <= n * k)%Z <-> (1 <= k)%Z)) /\
  (forall (f : spec_float) (m : Z),
     (n <= 2 ^ 53)%Z -> valid_binary 53 1024 f = true ->
     frame_dim n (PyFloat f) None = Ok m ->
     ((n <= m)%Z <-> (1 <= SF2Q f)%Q)) /\
  (valid_binary 53 1024 (float64 1 0) = true /\
   (1 <= SF2Q (float64 1 0))%Q /\
   frame_dim (2 ^ 53 + 1) (PyFloat (float64 1 0)) None = Ok (2 ^ 53)%Z).
Proof.
  intros n Hn. split; [|split].
  - intros k. split; [reflexivity|]. split; intros H; nia.
  - intros f m Hn53 Hv Hfd. apply frame_dim_tall_iff; [lia | exact Hv | exact Hfd].
  - split; [vm_compute; reflexivity|].
    split; [unfold Qle; vm_compute; discriminate | vm_compute; reflexivity].
Qed.

Lemma tall_frame_iff_redundancy_witness :
  (forall k : Z,
     frame_dim 3 (PyInt k) None = Ok (3 * k)%Z /\
     ((3 <= 3 * k)%Z <-> (1 <= k)%Z)) /\
  (forall (f : spec_float) (m : Z),
     (3 <= 2 ^ 53)%Z -> valid_binary 53 1024 f = true ->
     frame_dim 3 (PyFloat f) None = Ok m ->
     ((3 <= m)%Z <-> (1 <= SF2Q f)%Q)) /\
  (valid_binary 53 1024 (float64 1 0) = true /\
   (1 <= SF2Q (float64 1 0))%Q /\
   frame_dim (2 ^ 53 + 1) (PyFloat (float64 1 0)) None = Ok (2 ^ 53)%Z).
Proof.
  apply (tall_frame_iff_redundancy 3). lia.
Defined.

(** X17. A negative input dimension is not rejected: with an explicit frame
    dimension m >= 0 and n < 0, Python's slice [:n] drops the last |n|
    columns and random_frame returns an m x max(0, m+n) matrix, still with
    orthonormal columns. *)
Theorem negative_input_dimension_slices_from_the_end :
  forall {E : Numpy}, qr_contract E ->
  forall (n m : Z) (r : number) (seed : option N) (os : N),
  (n < 0)%Z -> (0 <= m)%Z ->
  exists F, random_frame n r (Some m) seed os = Ok F /\
            wf_matrix F /\
            shape0 F = Z.to_nat m /\
            shape1 F = Z.to_nat (m + n) /\
            orthonormal_cols F.
Proof.
  intros E Hqr n m r seed os Hn Hm.
  destruct (random_frame_returns Hqr n r (Some m) seed os m eq_refl Hm)
    as [Qm [Hrun [Hwf [H0 [H1 Horth]]]]].
  exists (take_cols n Qm). split; [exact Hrun|]. split; [apply take_cols_wf; exact Hwf|].
  split; [exact H0|]. split; [|apply take_cols_orthonormal; exact Horth].
  cbn [shape1 take_cols]. unfold slice_stop. rewrite H1.
  destruct (Z.ltb_spec n 0); lia.
Qed.

Lemma negative_input_dimension_slices_from_the_end_witness :
  exists F, random_frame (E:=counter_numpy) (-1) (PyInt 2) (Some 3%Z) (Some 0%N) 0%N = Ok F /\
            wf_matrix F /\
            shape0 F = Z.to_nat 3 /\
            shape1 F = Z.to_nat (3 + -1) /\
            orthonormal_cols F.
Proof.
  apply (negative_input_dimension_slices_from_the_end (E:=counter_numpy)
           counter_numpy_qr_contract (-1) 3 (PyInt 2) (Some 0%N) 0%N); lia.
Defined.

(** ** The main routine, end to end *)

Lemma norm_map_Rabs : forall u : list R, norm (map Rabs u) = norm u.
Proof.
  intros u. unfold norm. f_equal. rewrite map_map. f_equal.
  apply map_ext. intros a. unfold Rabs. destruct (Rcase_abs a); ring.
Qed.

Lemma dot_self_le_length : forall v : list R,
  Forall (fun a => -1 <= a < 1) v -> dot v v <= INR (length v).
Proof.
  induction v as [|a v IH]; intros Hv.
  - rewrite dot_nil_l. simpl. lra.
  - inversion Hv as [|? ? Ha Hv']; subst. specialize (IH Hv').
    rewrite dot_cons. change (length (a :: v)) with (S (length v)).
    rewrite S_INR. nra.
Qed.

(** X18. With the notebook's constants the main routine never raises: the
    frame is 325 x 21, the 200 passes run, the corrected estimate has 21
    entries, and the printed approximation error e satisfies 0 <= e and
    e^2 <= 2 |x|^2 <= 42 (for a factorization and a generator that meet
    their contracts). *)
Theorem main_routine_error_bounded :
  forall {E : Numpy}, qr_contract E -> rng_contract E ->
  forall os : N,
  exists (F : matrix) (x0' : list R) (e : R),
    random_frame main_n main_r None (Some 1121%N) os = Ok F /\
    shape0 F = 325%nat /\ shape1 F = 21%nat /\
    main_routine os = Ok (x0', e) /\
    length x0' = 21%nat /\
    0 <= e /\
    e * e <= 2 * (norm (randunif 21 (-1) 1 (Some 1231%N) os) *
                  norm (randunif 21 (-1) 1 (Some 1231%N) os)) /\
    e * e <= 42.
Proof.
  intros E Hqr Hrng os.
  assert (Hn : (1 <= main_n)%Z) by (vm_compute; discriminate).
  assert (Hfd : frame_dim main_n main_r None = Ok 325%Z) by (vm_compute; reflexivity).
  assert (Hm : (main_n <= 325)%Z) by (vm_compute; discriminate).
  destruct (random_frame_tall Hqr main_n main_r (Some 1121%N) os 325 Hn Hfd Hm)
    as [F [HF [Hwf [H0 [H1 Horth]]]]].
  change (Z.to_nat main_n) with 21%nat in *.
  set (x := randunif 21 (-1) 1 (Some 1231%N) os).
  assert (Hx : length x = shape1 F) by (unfold x; rewrite randunif_length; congruence).
  pose proof Hwf as [Hrows _].
  set (Fx := map (fun r => dot r x) (rows F)).
  assert (Hlb : length (map Rabs Fx) = shape0 F)
    by (unfold Fx; rewrite !length_map; exact Hrows).
  destruct (gs_loop_total (map Rabs Fx) F (Z.to_nat 200) 0
              (randunif (shape1 F) (-1) 1 (Some 4321%N) os) Hrows)
    as [x0 [Hrun [_ Hl0]]].
  { symmetry. apply randunif_length. }
  { left. exact Hlb. }
  assert (Hgs : gs_phaseless (map Rabs Fx) F 200 (Some 4321%N) os = Ok x0) by exact Hrun.
  assert (Hb0 : norm x0 <= norm x).
  { eapply Rle_trans;
      [apply (gs_run_bounded F (map Rabs Fx) 200 (Some 4321%N) os x0 Hwf Horth Hlb);
       [lia | exact Hgs]|].
    rewrite norm_map_Rabs, !norm_dot. unfold Fx.
    rewrite (analysis_isometry F x x Hwf Horth Hx). lra. }
  destruct (evaluate_ok x x0) as [c [e [Hev Hlc]]]; [congruence|].
  pose proof (evaluate_error_sqr x x0 c e Hev (eq_trans Hx (eq_sym Hl0))) as Hsq.
  pose proof (norm_sqr x) as Sx. pose proof (norm_sqr x0) as Sx0.
  pose proof (norm_nonneg x) as Px. pose proof (norm_nonneg x0) as Px0.
  assert (Hxx : dot x x <= 21).
  { assert (Hlen : length x = 21%nat) by (unfold x; apply randunif_length).
    assert (Hd : dot x x <= INR (length x)).
    { apply dot_self_le_length. unfold x. apply Forall_forall. intros v Hv.
      unfold randunif in Hv. apply in_map_iff in Hv. destruct Hv as [u [<- Hu]].
      pose proof (rng_random_range Hrng 21 (default_rng (Some 1231%N) os)) as Hr.
      rewrite Forall_forall in Hr. specialize (Hr u Hu). lra. }
    rewrite Hlen, INR_IZR_INZ in Hd. exact Hd. }
  exists F, c, e.
  split; [exact HF|]. split; [rewrite H0; reflexivity|]. split; [exact H1|].
  split.
  { unfold main_routine. change (Z.to_nat main_n) with 21%nat. fold x.
    rewrite HF. cbn [bind].
    rewrite matvec_rows by (symmetry; exact Hx). cbn [bind]. fold Fx.
    rewrite Hgs. cbn [bind]. exact Hev. }
  split; [congruence|].
  assert (He0 : 0 <= e).
  { destruct (evaluate_cases x x0 c e Hev) as [dp [dn [_ [_ [[_ [_ ->]] | [_ [_ ->]]]]]]];
      apply norm_nonneg. }
  split; [exact He0|].
  split; nra.
Qed.

Lemma main_routine_error_bounded_witness :
  exists (F : matrix) (x0' : list R) (e : R),
    random_frame (E:=counter_numpy) main_n main_r None (Some 1121%N) 0%N = Ok F /\
    shape0 F = 325%nat /\ shape1 F = 21%nat /\
    main_routine (E:=counter_numpy) 0%N = Ok (x0', e) /\
    length x0' = 21%nat /\
    0 <= e /\
    e * e <= 2 * (norm (randunif (E:=counter_numpy) 21 (-1) 1 (Some 1231%N) 0%N) *
                  norm (randunif (E:=counter_numpy) 21 (-1) 1 (Some 1231%N) 0%N)) /\
    e * e <= 42.
Proof.
  exact (main_routine_error_bounded (E:=counter_numpy) counter_numpy_qr_contract
           counter_numpy_rng_contract 0%N).
Defined.

(** ** Negating the iterate *)

Lemma sgn_opp : forall a : R, a <> 0 -> sgn (- a) = - sgn a.
Proof.
  intros a Ha; unfold sgn.
  destruct (Rlt_dec (- a) 0); destruct (Rlt_dec a 0); try lra.
Qed.

(** X19. A pass is odd in the iterate as long as no entry of F x is zero:
    then the pass from -x returns the negation of what the pass from x
    returns (so keeping y0 or -y0 on a tie only changes the sign of the
    iterates); a zero entry of F x breaks this, since the phase of 0 is
    taken as 0 for x and for -x alike. *)
Theorem pass_is_odd_off_zero_entries :
  forall (b : list R) (F : matrix) (x X : list R),
  matvec F x = Ok X -> Forall (fun a => a <> 0) X ->
  gs_step b b F (vneg x) = rmap vneg (gs_step b b F x).
Proof.
  intros b F x X HX Hnz. rewrite !gs_step_real, matvec_vneg, HX. cbn [rmap bind].
  assert (HS : map sgn (vneg X) = vneg (map sgn X)).
  { unfold vneg. rewrite !map_map. apply map_ext_in. intros a Ha.
    rewrite Forall_forall in Hnz. simpl. apply sgn_opp. apply Hnz. exact Ha. }
  rewrite HS. unfold vneg at 1. rewrite broadcast2_map_r.
  rewrite (broadcast2_ext _ (fun a s => - (a * s))) by (intros; simpl; ring).
  rewrite (broadcast2_map_out Rmult Ropp).
  destruct (broadcast2 Rmult b (map sgn X)) as [Yr|e]; cbn [rmap bind]; [|reflexivity].
  change (map Ropp Yr) with (vneg Yr). rewrite matvec_vneg.
  destruct (matvec (transpose F) Yr) as [w|e]; reflexivity.
Qed.

Lemma pass_is_odd_off_zero_entries_witness :
  gs_step [1] [1] (array2 1 [[1]]) (vneg [1 / 2]) =
  rmap vneg (gs_step [1] [1] (array2 1 [[1]]) [1 / 2]).
Proof.
  apply (pass_is_odd_off_zero_entries [1] (array2 1 [[1]]) [1 / 2] [1 * (1 / 2) + 0]).
  - reflexivity.
  - repeat constructor. lra.
Defined.
